(** * Sitemap Tracker dashboard: grouping, navigation and filtering

    A shallow embedding of the data-transformation helpers of the
    dashboard ([dashboard/src/app/page.tsx], [components/NodeDetails.tsx])
    and of the interfaces they consume ([types]).

    Conventions.
    - A JavaScript string is a [string] (a sequence of one-byte code
      units); the case mapping below is the ASCII one, which is what
      [toLowerCase] does on the ASCII text of URL paths.
    - A JavaScript number that holds a count is a [Z].
    - An optional field, or a value that may be [undefined]/[null], is
      an [option].
    - [String.prototype.localeCompare] is a host function: its result is
      fixed by the host's collation, not by the program.  The model
      takes it as a section variable, so that every statement holds for
      every host comparator. *)

From Stdlib Require Import List String Ascii ZArith NArith Lia Bool Arith.
From Stdlib Require Import Permutation Sorted.
Import ListNotations.
Open Scope string_scope.
Open Scope list_scope.

(** ** JavaScript primitives *)

Module Js.

(** [a || b] on a possibly missing string: [undefined], [null] and the
    empty string are falsy. *)
Definition orElse (a : option string) (b : string) : string :=
  match a with
  | Some s => if (s =? "")%string then b else s
  | None => b
  end.

(** Truthiness of a string. *)
Definition truthy (s : string) : bool := negb (s =? "")%string.

(** [String.prototype.toLowerCase] on ASCII code units: [A]-[Z] are
    lowered and every other code unit is left as it is (the host also
    lowers the letters outside ASCII). *)
Definition lowerChar (c : ascii) : ascii :=
  let n := nat_of_ascii c in
  if (65 <=? n)%nat && (n <=? 90)%nat then ascii_of_nat (n + 32) else c.

Fixpoint toLowerCase (s : string) : string :=
  match s with
  | EmptyString => EmptyString
  | String c s' => String (lowerChar c) (toLowerCase s')
  end.

(** [s.includes(p)]: [p] occurs in [s] as a contiguous substring. *)
Fixpoint includes (s p : string) : bool :=
  String.prefix p s
  || match s with
     | EmptyString => false
     | String _ s' => includes s' p
     end.

(** [Array.prototype.sort(compareFn)].  The sort is stable: elements
    that compare equal keep their relative order.  For a consistent
    comparator the result of a stable sort is unique, and it is the
    one computed here by insertion from the right. *)
Section Sort.
Context {A : Type} (compareFn : A -> A -> Z).

Fixpoint insert (x : A) (l : list A) : list A :=
  match l with
  | [] => [x]
  | y :: l' =>
      if (compareFn x y <=? 0)%Z then x :: l else y :: insert x l'
  end.

Definition sort (l : list A) : list A := fold_right insert [] l.
End Sort.

(** An array index is a canonical numeric string whose value is below
    [2^32 - 1]; own properties with such keys are enumerated first, in
    ascending numeric order. *)
Definition digit (c : ascii) : option N :=
  let n := N_of_ascii c in
  if (48 <=? n)%N && (n <=? 57)%N then Some (n - 48)%N else None.

Fixpoint digits (s : string) (acc : N) : option N :=
  match s with
  | EmptyString => Some acc
  | String c s' =>
      match digit c with
      | Some d => digits s' (10 * acc + d)%N
      | None => None
      end
  end.

Definition arrayIndex (s : string) : option N :=
  match s with
  | EmptyString => None
  | String c s' =>
      if (c =? "0")%char && negb (s' =? "")%string then None
      else match digits s 0%N with
           | Some n => if (n <? 4294967295)%N then Some n else None
           | None => None
           end
  end.

Definition isArrayIndex (s : string) : bool :=
  match arrayIndex s with Some _ => true | None => false end.

Definition indexValue (s : string) : Z :=
  match arrayIndex s with Some n => Z.of_N n | None => 0%Z end.

(** The order in which the own property keys of an object are
    enumerated, given the order in which they were created. *)
Definition propertyOrder (keys : list string) : list string :=
  sort (fun a b => (indexValue a - indexValue b)%Z)
       (filter isArrayIndex keys)
  ++ filter (fun k => negb (isArrayIndex k)) keys.

(** The property names every plain object literal inherits from
    [Object.prototype].  Reading one of them on [{}] gives a function
    (or, for [__proto__], the prototype object): a truthy value that
    is not an array. *)
Definition objectPrototypeKeys : list string :=
  [ "constructor"; "__defineGetter__"; "__defineSetter__";
    "hasOwnProperty"; "__lookupGetter__"; "__lookupSetter__";
    "isPrototypeOf"; "propertyIsEnumerable"; "toString"; "valueOf";
    "__proto__"; "toLocaleString" ].

Definition inherited (key : string) : bool :=
  existsb (String.eqb key) objectPrototypeKeys.

(** A plain object used as a dictionary of arrays: its own properties,
    in insertion order. *)
Section Dict.
Context {V : Type}.

Definition Dict := list (string * V).

Fixpoint getOwn (o : Dict) (key : string) : option V :=
  match o with
  | [] => None
  | (k, v) :: o' => if (k =? key)%string then Some v else getOwn o' key
  end.

(** Update of the value held by an own property, in place. *)
Fixpoint update (o : Dict) (key : string) (f : V -> V) : Dict :=
  match o with
  | [] => []
  | (k, v) :: o' =>
      if (k =? key)%string then (k, f v) :: o'
      else (k, v) :: update o' key f
  end.

(** [Object.entries(o)]: array-index keys first, ascending, then the
    other string keys in insertion order. *)
Definition entries (o : Dict) : list (string * V) :=
  sort (fun a b => (indexValue (fst a) - indexValue (fst b))%Z)
       (filter (fun e => isArrayIndex (fst e)) o)
  ++ filter (fun e => negb (isArrayIndex (fst e))) o.
End Dict.
Arguments Dict : clear implicits.

End Js.

(** ** Errors

    The only exception the modelled code can raise is the [TypeError] of
    calling a method that does not exist. *)

Inductive Result (A : Type) : Type :=
| Ok : A -> Result A
| TypeError : Result A.
Arguments Ok {A} _.
Arguments TypeError {A}.

Definition bind {A B : Type} (m : Result A) (k : A -> Result B) : Result B :=
  match m with
  | Ok a => k a
  | TypeError => TypeError
  end.

Notation "x <- m ;; k" := (bind m (fun x => k))
  (at level 61, m at next level, right associativity).

(** ** Data model ([types]) *)

Record IntentRecord : Type := mkIntentRecord {
  url : string;
  path : string;
  depth : option Z;
  slug_tokens : option (list string);
  action : string;
  object : string;
  scene : option string;
  intent_category : string;
  notes : option string;
  lastmod : option string;
  title : option string;
  is_new : option bool
}.

#[warnings="-register-all"]
Inductive DirectoryNode : Type := mkDirectoryNode {
  name : string;
  node_path : string;
  count : Z;
  children : list DirectoryNode;
  records : list IntentRecord
}.

Record IntentGroup : Type := mkIntentGroup {
  ig_intent_category : string;
  ig_url_count : Z;
  ig_sample_urls : list string
}.

Record ActionObjectGroup : Type := mkActionObjectGroup {
  ao_action : string;
  ao_object : string;
  ao_url_count : Z;
  ao_sample_urls : list string
}.

(** The two coverage percentages are carried as hundredths of a percent;
    no modelled function computes with them. *)
Record SitemapSummary : Type := mkSitemapSummary {
  schema_version : string;
  by_intent_category : list IntentGroup;
  by_action_object : list ActionObjectGroup;
  total_urls : Z;
  coverage_strict_percentage : Z;
  coverage_any_percentage : Z;
  directory_tree : DirectoryNode
}.

Inductive ViewMode : Type := Structure | Intent | Media.
Inductive SortMode : Type := SortName | SortDate | SortCount.

(** Induction over a tree, with the hypothesis on every child. *)
Section TreeInduction.
Variable P : DirectoryNode -> Prop.
Hypothesis step :
  forall nm p c ch rs, Forall P ch -> P (mkDirectoryNode nm p c ch rs).

Fixpoint DirectoryNode_tree_ind (node : DirectoryNode) : P node :=
  match node with
  | mkDirectoryNode nm p c ch rs =>
      step nm p c ch rs
           ((fix all (l : list DirectoryNode) : Forall P l :=
               match l with
               | [] => Forall_nil P
               | child :: l' =>
                   Forall_cons child (DirectoryNode_tree_ind child) (all l')
               end) ch)
  end.
End TreeInduction.

(** ** Data transformation helpers ([page.tsx]) *)

(** [getAllRecords]: a copy of the node's records, to which the records
    of each child are concatenated, child after child. *)
Fixpoint getAllRecords (node : DirectoryNode) : list IntentRecord :=
  match node with
  | mkDirectoryNode _ _ _ ch rs =>
      fold_left (fun recs child => recs ++ getAllRecords child) ch rs
  end.

(** The key functions of the Intent and Media views,
    [r => r.intent_category] and [r => r.object]. *)
Definition byIntent (r : IntentRecord) : option string :=
  Some (intent_category r).

Definition byObject (r : IntentRecord) : option string :=
  Some (object r).

Section Host.

(** The host's [String.prototype.localeCompare]. *)
Variable localeCompare : string -> string -> Z.

Definition Groups := Js.Dict (list IntentRecord).

(** [keyFn(rec) || "Uncategorized"] *)
Definition groupKey (keyFn : IntentRecord -> option string)
           (rec : IntentRecord) : string :=
  Js.orElse (keyFn rec) "Uncategorized".

(** One turn of the loop that fills [groups].  [groups[key]] is the
    array when [key] is an own property; it is an inherited, truthy
    non-array when [key] names a property of [Object.prototype], and
    then [groups[key].push] is not a function; otherwise it is
    [undefined] and a fresh array is stored first. *)
Definition addRecord (keyFn : IntentRecord -> option string)
           (groups : Groups) (rec : IntentRecord) : Result Groups :=
  let key := groupKey keyFn rec in
  match Js.getOwn groups key with
  | Some _ => Ok (Js.update groups key (fun arr => arr ++ [rec]))
  | None =>
      if Js.inherited key then TypeError
      else Ok (groups ++ [(key, [rec])])
  end.

Fixpoint fillGroups (keyFn : IntentRecord -> option string)
         (groups : Groups) (recs : list IntentRecord) : Result Groups :=
  match recs with
  | [] => Ok groups
  | rec :: recs' =>
      groups' <- addRecord keyFn groups rec ;;
      fillGroups keyFn groups' recs'
  end.

(** Comparator of the records inside one group. *)
Definition compareRecords (sortMode : SortMode) (a b : IntentRecord) : Z :=
  match sortMode with
  | SortDate =>
      localeCompare (Js.orElse (lastmod b) "") (Js.orElse (lastmod a) "")
  | _ =>
      localeCompare (Js.orElse (title a) (url a))
                    (Js.orElse (title b) (url b))
  end.

(** Comparator of the groups themselves. *)
Definition compareGroups (sortMode : SortMode) (a b : DirectoryNode) : Z :=
  match sortMode with
  | SortCount => (count b - count a)%Z
  | SortDate => (count b - count a)%Z
  | SortName => localeCompare (name a) (name b)
  end.

Definition groupNode (sortMode : SortMode)
           (e : string * list IntentRecord) : DirectoryNode :=
  let '(name, groupRecords) := e in
  {| name := name;
     node_path := ("/" ++ name)%string;
     count := Z.of_nat (List.length groupRecords);
     children := [];
     records := Js.sort (compareRecords sortMode) groupRecords |}.

Definition groupRecords (records : list IntentRecord)
           (keyFn : IntentRecord -> option string)
           (sortMode : SortMode) : Result DirectoryNode :=
  groups <- fillGroups keyFn [] records ;;
  let children :=
    Js.sort (compareGroups sortMode)
            (map (groupNode sortMode) (Js.entries groups)) in
  Ok {| name := "Root";
        node_path := "/";
        count := Z.of_nat (List.length records);
        children := children;
        records := [] |}.

(** *** The dashboard's derived values *)

Definition baseRecords (data : SitemapSummary) : list IntentRecord :=
  getAllRecords (directory_tree data).

Definition virtualRoot (data : SitemapSummary) (activeSite : string)
           (viewMode : ViewMode) (sortMode : SortMode)
  : Result DirectoryNode :=
  match viewMode with
  | Structure =>
      let t := directory_tree data in
      Ok {| name := activeSite;
            node_path := node_path t;
            count := count t;
            children := children t;
            records := records t |}
  | Intent =>
      groupRecords (baseRecords data) byIntent sortMode
  | Media =>
      groupRecords (baseRecords data) byObject sortMode
  end.

End Host.

(** [current.children.find(c => c.name === segment)], then the loop of
    [currentNode]: a segment that matches no child ends the walk with
    the virtual root. *)
Fixpoint navigate (virtualRoot current : DirectoryNode)
         (navigationPath : list string) : DirectoryNode :=
  match navigationPath with
  | [] => current
  | segment :: rest =>
      match find (fun c => (name c =? segment)%string) (children current) with
      | Some child => navigate virtualRoot child rest
      | None => virtualRoot
      end
  end.

Definition currentNode (virtualRoot : DirectoryNode)
           (navigationPath : list string) : DirectoryNode :=
  navigate virtualRoot virtualRoot navigationPath.

(** [baseRecords.filter(r => r.is_new).length] *)
Definition isNew (r : IntentRecord) : bool :=
  match is_new r with Some true => true | _ => false end.

Definition newUrlCount (data : SitemapSummary) : nat :=
  List.length (filter isNew (getAllRecords (directory_tree data))).

(** ** Record filtering ([NodeDetails.tsx]) *)

Definition COMMON_PAGE_PATTERNS : list string :=
  [ "login"; "signup"; "signin"; "register"; "cart"; "account";
    "reset-password"; "contact"; "pricing"; "legal"; "policy"; "terms";
    "about"; "support"; "faq"; "help"; "careers"; "jobs"; "status";
    "feed"; "rss"; "atom"; "sitemap" ].

(** The initial values of the two pieces of state, [useState(true)] and
    [useState("")]. *)
Definition initialHideCommon : bool := true.
Definition initialSearchQuery : string := "".

Definition isNoise (name : string) : bool :=
  let lower := Js.toLowerCase name in
  existsb (fun p => Js.includes lower p) COMMON_PAGE_PATTERNS.

Definition filteredRecords (node : DirectoryNode) (hideCommon : bool)
           (searchQuery : string) : list IntentRecord :=
  filter
    (fun record =>
       if hideCommon && isNoise (path record) then false
       else if Js.truthy searchQuery then
         let q := Js.toLowerCase searchQuery in
         Js.includes (Js.toLowerCase (path record)) q
         || Js.includes (Js.toLowerCase (Js.orElse (title record) "")) q
         || Js.includes (Js.toLowerCase (action record)) q
         || Js.includes (Js.toLowerCase (object record)) q
       else true)
    (records node).

(** ** The declared shape of the summary document ([types])

    An interface declaration is the list of its fields, each with its
    type; a field whose type is an array of another interface is a list
    of entries of that interface. *)

Inductive TsType : Type :=
| TString
| TNumber
| TBoolean
| TNullable (t : TsType)
| TArray (t : TsType)
| TRef (interface : string).

Record TsField : Type := mkTsField {
  field_name : string;
  field_optional : bool;
  field_type : TsType
}.

Definition required (n : string) (t : TsType) : TsField := mkTsField n false t.
Definition optional (n : string) (t : TsType) : TsField := mkTsField n true t.

Definition IntentRecord_interface : list TsField :=
  [ required "url" TString; required "path" TString;
    optional "depth" TNumber; optional "slug_tokens" (TArray TString);
    required "action" TString; required "object" TString;
    optional "scene" TString; required "intent_category" TString;
    optional "notes" TString; required "lastmod" (TNullable TString);
    optional "title" TString; optional "is_new" TBoolean ].

Definition DirectoryNode_interface : list TsField :=
  [ required "name" TString; required "path" TString;
    required "count" TNumber;
    required "children" (TArray (TRef "DirectoryNode"));
    required "records" (TArray (TRef "IntentRecord")) ].

Definition IntentGroup_interface : list TsField :=
  [ required "intent_category" TString; required "url_count" TNumber;
    required "sample_urls" (TArray TString) ].

Definition ActionObjectGroup_interface : list TsField :=
  [ required "action" TString; required "object" TString;
    required "url_count" TNumber; required "sample_urls" (TArray TString) ].

Definition SitemapSummary_interface : list TsField :=
  [ required "schema_version" TString;
    required "by_intent_category" (TArray (TRef "IntentGroup"));
    required "by_action_object" (TArray (TRef "ActionObjectGroup"));
    required "total_urls" TNumber;
    required "coverage_strict_percentage" TNumber;
    required "coverage_any_percentage" TNumber;
    required "directory_tree" (TRef "DirectoryNode") ].

Definition declarations : list (string * list TsField) :=
  [ ("IntentRecord", IntentRecord_interface);
    ("DirectoryNode", DirectoryNode_interface);
    ("IntentGroup", IntentGroup_interface);
    ("ActionObjectGroup", ActionObjectGroup_interface);
    ("SitemapSummary", SitemapSummary_interface) ].

(** The shape of a document: its top-level fields, and for a field that
    is a list of entries the fields of an entry. *)
Inductive Shape : Type :=
| Plain (field : string)
| Entries (field : string) (entry_fields : list string).

Definition shapeOfField (f : TsField) : Shape :=
  match field_type f with
  | TArray (TRef i) =>
      match Js.getOwn declarations i with
      | Some fields => Entries (field_name f) (map field_name fields)
      | None => Plain (field_name f)
      end
  | _ => Plain (field_name f)
  end.

Definition shapeOf (interface : list TsField) : list Shape :=
  map shapeOfField interface.

(** The shape the specification gives for the summary document. *)
Definition spec_SummaryDocument_shape : list Shape :=
  [ Plain "schema_version";
    Entries "by_intent_category"
            ["intent_category"; "url_count"; "sample_urls"];
    Entries "by_action_object"
            ["action"; "object"; "url_count"; "sample_urls"];
    Plain "total_urls";
    Plain "coverage_strict_percentage";
    Plain "coverage_any_percentage";
    Plain "directory_tree" ].

(** ** Vocabulary of the statements about [groupRecords] *)

(** The key function of a grouped view. *)
Definition viewKey (viewMode : ViewMode) : IntentRecord -> option string :=
  match viewMode with
  | Media => byObject
  | _ => byIntent
  end.

(** The distinct keys of a sequence, in order of first occurrence. *)
Definition noteKey (seen : list string) (k : string) : list string :=
  if existsb (String.eqb k) seen then seen else seen ++ [k].

Definition firstOccurrences (ks : list string) : list string :=
  fold_left noteKey ks [].

Definition groupsSize (groups : Groups) : nat :=
  fold_right (fun e n => (List.length (snd e) + n)%nat) 0%nat groups.

(** The name of the group of a category: the category itself, or
    [Uncategorized] for the empty one. *)
Definition categoryGroup (category : string) : string :=
  Js.orElse (Some category) "Uncategorized".

(** The records of one key. *)
Definition hasKey (keyFn : IntentRecord -> option string)
           (k : string) (r : IntentRecord) : bool :=
  (groupKey keyFn r =? k)%string.

Definition groupSize (keyFn : IntentRecord -> option string)
           (recs : list IntentRecord) (k : string) : Z :=
  Z.of_nat (List.length (filter (hasKey keyFn k) recs)).

(** ** Walking a tree by names

    [reaches node path target]: following [path] from [node], each
    segment in turn names a child of the node reached so far, and
    [target] is where the walk ends.  When several children bear the
    name, the first one is meant. *)
Inductive reaches : DirectoryNode -> list string -> DirectoryNode -> Prop :=
| reaches_here node : reaches node [] node
| reaches_child node segment rest before child after target :
    children node = before ++ child :: after ->
    name child = segment ->
    (forall c, In c before -> name c <> segment) ->
    reaches child rest target ->
    reaches node (segment :: rest) target.

(** ** Trees *)

(** Every node of a tree, the node itself first. *)
Fixpoint nodes (node : DirectoryNode) : list DirectoryNode :=
  match node with
  | mkDirectoryNode _ _ _ ch _ => node :: flat_map nodes ch
  end.

Definition sumCounts (l : list DirectoryNode) : Z :=
  fold_right (fun child acc => (count child + acc)%Z) 0%Z l.

(** The count invariant at one node, and at every node of a tree. *)
Definition countBalanced (node : DirectoryNode) : Prop :=
  count node =
  (Z.of_nat (List.length (records node)) + sumCounts (children node))%Z.

Definition countInvariant (tree : DirectoryNode) : Prop :=
  forall node, In node (nodes tree) -> countBalanced node.

(** Sample inputs: a record that has only a URL and a category, one
    that has only a URL and an object, and a summary document whose tree
    is a single node holding the given records. *)
Definition page (u c : string) : IntentRecord :=
  {| url := u; path := u; depth := None; slug_tokens := None;
     action := "unknown"; object := "unknown"; scene := None;
     intent_category := c; notes := None; lastmod := None;
     title := None; is_new := None |}.

Definition mediaPage (u o : string) : IntentRecord :=
  {| url := u; path := u; depth := None; slug_tokens := None;
     action := "unknown"; object := o; scene := None;
     intent_category := "unknown"; notes := None; lastmod := None;
     title := None; is_new := None |}.

Definition singleNodeSite (recs : list IntentRecord) : SitemapSummary :=
  {| schema_version := "1";
     by_intent_category := [];
     by_action_object := [];
     total_urls := Z.of_nat (List.length recs);
     coverage_strict_percentage := 0;
     coverage_any_percentage := 0;
     directory_tree :=
       {| name := ""; node_path := "/";
          count := Z.of_nat (List.length recs);
          children := []; records := recs |} |}.

(** A host collation used to run the model on concrete inputs.  On
    strings of ASCII letters and digits it orders as the default
    collation of [localeCompare] does: alphabetically without regard to
    case first; strings that differ only in case are then ordered by
    their first difference, lower case first. *)
Definition collate (a b : string) : Z :=
  match String.compare (Js.toLowerCase a) (Js.toLowerCase b) with
  | Lt => (-1)%Z
  | Gt => 1%Z
  | Eq =>
      match String.compare a b with
      | Lt => 1%Z
      | Gt => (-1)%Z
      | Eq => 0%Z
      end
  end.

(** A two-level tree: a root holding one record, with one child holding
    two, one of them new. *)
Definition sampleTree : DirectoryNode :=
  {| name := ""; node_path := "/"; count := 3;
     children :=
       [ {| name := "features"; node_path := "/features"; count := 2;
            children := [];
            records :=
              [ page "/features/edit" "edit";
                {| url := "/features/upscale"; path := "/features/upscale";
                   depth := Some 2%Z; slug_tokens := None;
                   action := "upscale"; object := "image"; scene := None;
                   intent_category := "upscale"; notes := None;
                   lastmod := None; title := None;
                   is_new := Some true |} ] |} ];
     records := [ page "/pricing" "pricing" ] |}.

(** The first child of [sampleTree]. *)
Definition featuresNode : DirectoryNode :=
  match children sampleTree with
  | child :: _ => child
  | [] => sampleTree
  end.

(** A summary document whose tree is [sampleTree]. *)
Definition sampleSite : SitemapSummary :=
  {| schema_version := "1";
     by_intent_category := [];
     by_action_object := [];
     total_urls := 3;
     coverage_strict_percentage := 0;
     coverage_any_percentage := 0;
     directory_tree := sampleTree |}.

(** ** Sub-directories, badges and record rows ([NodeDetails.tsx]) *)

Definition LANGUAGE_MAP : Js.Dict string :=
  [ ("ar", "阿拉伯语"); ("bg", "保加利亚语"); ("cs", "捷克语");
    ("da", "丹麦语"); ("de", "德语"); ("el", "希腊语"); ("en", "英语");
    ("es", "西班牙语"); ("et", "爱沙尼亚语"); ("fi", "芬兰语");
    ("fr", "法语"); ("he", "希伯来语"); ("hi", "印地语");
    ("hr", "克罗地亚语"); ("hu", "匈牙利语"); ("id", "印尼语");
    ("it", "意大利语"); ("ja", "日语"); ("ko", "韩语");
    ("lt", "立陶宛语"); ("lv", "拉脱维亚语"); ("nl", "荷兰语");
    ("no", "挪威语"); ("pl", "波兰语"); ("pt", "葡萄牙语");
    ("pt-br", "葡萄牙语(巴西)"); ("ro", "罗马尼亚语"); ("ru", "俄语");
    ("sk", "斯洛伐克语"); ("sl", "斯洛文尼亚语"); ("sr", "塞尔维亚语");
    ("sv", "瑞典语"); ("th", "泰语"); ("tr", "土耳其语");
    ("uk", "乌克兰语"); ("vi", "越南语"); ("zh", "中文");
    ("zh-cn", "中文(简体)"); ("zh-tw", "中文(繁体)") ].

(** [Object.keys(o)] and [array.includes(x)] on strings. *)
Definition objectKeys {V : Type} (o : Js.Dict V) : list string :=
  map fst (Js.entries o).

Definition arrayIncludes (l : list string) (x : string) : bool :=
  existsb (String.eqb x) l.

(** The value of [o[key]] on a plain object: the value of the own
    property, something inherited from [Object.prototype], or
    [undefined]. *)
Inductive PropertyRead (V : Type) : Type :=
| OwnValue (v : V)
| InheritedValue
| Undefined.
Arguments OwnValue {V} _.
Arguments InheritedValue {V}.
Arguments Undefined {V}.

Definition readProperty {V : Type} (o : Js.Dict V) (key : string)
  : PropertyRead V :=
  match Js.getOwn o key with
  | Some v => OwnValue v
  | None => if Js.inherited key then InheritedValue else Undefined
  end.

Definition isLanguage (name : string) : bool :=
  arrayIncludes (objectKeys LANGUAGE_MAP) (Js.toLowerCase name).

(** [LANGUAGE_MAP[child.name.toLowerCase()]], the label of a language
    card. *)
Definition languageLabel (name : string) : PropertyRead string :=
  readProperty LANGUAGE_MAP (Js.toLowerCase name).

Section HostDirs.

Variable localeCompare : string -> string -> Z.

(** [dirs] after the optional removal of the common pages. *)
Definition visibleDirs (node : DirectoryNode) (hideCommon : bool)
  : list DirectoryNode :=
  let dirs := children node in
  if hideCommon then filter (fun d => negb (isNoise (name d))) dirs
  else dirs.

Definition standardDirs (node : DirectoryNode) (hideCommon : bool)
  : list DirectoryNode :=
  Js.sort (fun a b => localeCompare (name a) (name b))
          (filter (fun d => negb (isLanguage (name d)))
                  (visibleDirs node hideCommon)).

Definition languageDirs (node : DirectoryNode) (hideCommon : bool)
  : list DirectoryNode :=
  Js.sort (fun a b => localeCompare (name a) (name b))
          (filter (fun d => isLanguage (name d))
                  (visibleDirs node hideCommon)).

End HostDirs.

(** [Badge]: nothing for an empty label or the label [unknown];
    otherwise the label with the style of the last key of [colors] that
    occurs in it, or the default style. *)
Definition badgeColors : Js.Dict string :=
  [ ("commercial", "text-emerald-400 bg-emerald-400/10 border-emerald-400/20");
    ("informational", "text-blue-400 bg-blue-400/10 border-blue-400/20");
    ("navigational", "text-purple-400 bg-purple-400/10 border-purple-400/20") ].

Definition defaultBadgeStyle : string :=
  "text-slate-500 bg-slate-500/10 border-slate-500/20".

Definition badgeStyle (label : string) : string :=
  fold_left (fun style e => if Js.includes label (fst e) then snd e else style)
            (Js.entries badgeColors) defaultBadgeStyle.

Definition Badge (label : string) : option (string * string) :=
  if negb (Js.truthy label) || (label =? "unknown")%string then None
  else Some (badgeStyle label, label).

(** [RecordItem]: the URL without its scheme and without one final
    slash, and the date part of [lastmod]. *)
Fixpoint dropPrefix (p s : string) : option string :=
  match p with
  | EmptyString => Some s
  | String a p' =>
      match s with
      | EmptyString => None
      | String b s' => if (a =? b)%char then dropPrefix p' s' else None
      end
  end.

(** [s.replace(/^https?:\/\//, '')] *)
Definition stripScheme (s : string) : string :=
  match dropPrefix "https://" s with
  | Some rest => rest
  | None =>
      match dropPrefix "http://" s with
      | Some rest => rest
      | None => s
      end
  end.

(** [s.replace(/\/$/, '')] *)
Fixpoint stripTrailingSlash (s : string) : string :=
  match s with
  | EmptyString => EmptyString
  | String c EmptyString => if (c =? "/")%char then EmptyString else s
  | String c s' => String c (stripTrailingSlash s')
  end.

Definition displayUrl (record : IntentRecord) : string :=
  stripTrailingSlash (stripScheme (url record)).

(** The text of the URL bubble, [{displayUrl}/]. *)
Definition urlBubbleText (record : IntentRecord) : string :=
  (displayUrl record ++ "/")%string.

(** [s.split("T")[0]] *)
Fixpoint beforeT (s : string) : string :=
  match s with
  | EmptyString => EmptyString
  | String c s' => if (c =? "T")%char then EmptyString
                   else String c (beforeT s')
  end.

Definition lastMod (record : IntentRecord) : string :=
  match lastmod record with
  | Some s => if Js.truthy s then beforeT s else ""
  | None => ""
  end.

(** [p] occurs in [s]. *)
Definition occursIn (p s : string) : Prop :=
  exists pre post, s = (pre ++ p ++ post)%string.

(** ** The state of the dashboard and its handlers ([page.tsx]) *)

Module Dashboard.

Record State : Type := mkState {
  activeSite : string;
  viewMode : ViewMode;
  sortMode : SortMode;
  navigationPath : list string
}.

(** The initial values of the four pieces of state. *)
Definition initial : State :=
  {| activeSite := "krea.ai"; viewMode := Structure;
     sortMode := SortName; navigationPath := [] |}.

Definition handleViewSwitch (mode : ViewMode) (s : State) : State :=
  {| activeSite := activeSite s; viewMode := mode;
     sortMode := sortMode s; navigationPath := [] |}.

Definition handleSiteSwitch (site : string) (s : State) : State :=
  {| activeSite := site; viewMode := viewMode s;
     sortMode := sortMode s; navigationPath := [] |}.

(** [setSortMode(prev => prev === 'name' ? 'count' : 'name')] *)
Definition toggleSort (s : State) : State :=
  {| activeSite := activeSite s; viewMode := viewMode s;
     sortMode := match sortMode s with
                 | SortName => SortCount
                 | _ => SortName
                 end;
     navigationPath := navigationPath s |}.

(** The Home button: [setNavigationPath([])]. *)
Definition goHome (s : State) : State :=
  {| activeSite := activeSite s; viewMode := viewMode s;
     sortMode := sortMode s; navigationPath := [] |}.

(** A breadcrumb:
    [setNavigationPath(navigationPath.slice(0, index + 1))]. *)
Definition goToCrumb (index : nat) (s : State) : State :=
  {| activeSite := activeSite s; viewMode := viewMode s;
     sortMode := sortMode s;
     navigationPath := firstn (index + 1) (navigationPath s) |}.

(** [onNavigate]: [setNavigationPath([...navigationPath, path])]. *)
Definition onNavigate (segment : string) (s : State) : State :=
  {| activeSite := activeSite s; viewMode := viewMode s;
     sortMode := sortMode s;
     navigationPath := navigationPath s ++ [segment] |}.

Section Run.

Variable localeCompare : string -> string -> Z.

(** The summary documents imported for the sites, [SITES]. *)
Variable SITES : string -> SitemapSummary.

Definition root (s : State) : Result DirectoryNode :=
  virtualRoot localeCompare (SITES (activeSite s)) (activeSite s)
              (viewMode s) (sortMode s).

(** The node handed to [NodeDetails]. *)
Definition node (s : State) : Result DirectoryNode :=
  r <- root s ;; Ok (currentNode r (navigationPath s)).

(** What the user can do.  A breadcrumb exists for each segment of the
    path; [onNavigate] is called by the card of a language directory of
    the displayed node, with the name of that directory. *)
Inductive step : State -> State -> Prop :=
| step_view mode s : step s (handleViewSwitch mode s)
| step_site site s : step s (handleSiteSwitch site s)
| step_sort s : step s (toggleSort s)
| step_home s : step s (goHome s)
| step_crumb index s :
    (index < List.length (navigationPath s))%nat ->
    step s (goToCrumb index s)
| step_navigate hideCommon shown child s :
    node s = Ok shown ->
    In child (languageDirs localeCompare shown hideCommon) ->
    step s (onNavigate (name child) s).

Inductive reachable : State -> Prop :=
| reachable_initial : reachable initial
| reachable_step s s' : reachable s -> step s s' -> reachable s'.

End Run.

End Dashboard.

(** A directory without content, a tree with two language directories,
    a common page and two ordinary directories, and a summary document
    with that tree. *)
Definition emptyDir (n : string) : DirectoryNode :=
  {| name := n; node_path := ("/" ++ n)%string;
     count := 0; children := []; records := [] |}.

Definition siteRoot : DirectoryNode :=
  {| name := ""; node_path := "/"; count := 0;
     children := [emptyDir "tools"; emptyDir "fr"; emptyDir "Login";
                  emptyDir "blog"; emptyDir "DE"];
     records := [] |}.

Definition languageSite : SitemapSummary :=
  {| schema_version := "1";
     by_intent_category := [];
     by_action_object := [];
     total_urls := 0;
     coverage_strict_percentage := 0;
     coverage_any_percentage := 0;
     directory_tree := siteRoot |}.

(** * Properties *)

(** ** The stable sort *)

Section SortFacts.
Context {A : Type} (compareFn : A -> A -> Z).

Lemma insert_perm (x : A) (l : list A) :
  Permutation (Js.insert compareFn x l) (x :: l).
Proof.
  induction l as [|y l IH]; simpl.
  - apply Permutation_refl.
  - destruct (compareFn x y <=? 0)%Z.
    + apply Permutation_refl.
    + eapply perm_trans; [apply perm_skip, IH | apply perm_swap].
Qed.

Lemma sort_perm (l : list A) : Permutation (Js.sort compareFn l) l.
Proof.
  induction l as [|x l IH]; simpl.
  - constructor.
  - eapply perm_trans; [apply insert_perm | apply perm_skip, IH].
Qed.

Lemma sort_length (l : list A) :
  List.length (Js.sort compareFn l) = List.length l.
Proof. apply Permutation_length, sort_perm. Qed.

Lemma sort_In (l : list A) (x : A) : In x (Js.sort compareFn l) <-> In x l.
Proof.
  split; apply Permutation_in;
    [apply sort_perm | apply Permutation_sym, sort_perm].
Qed.

(** Stability: a class of elements that compare equal to each other
    comes out of the sort in the order it went in. *)
Lemma insert_filter (p : A -> bool) (x : A) (l : list A) :
  (forall a b, p a = true -> p b = true -> (compareFn a b <= 0)%Z) ->
  filter p (Js.insert compareFn x l) = filter p (x :: l).
Proof.
  intros Hp. induction l as [|y l IH]; [reflexivity|].
  cbn [Js.insert]. destruct (compareFn x y <=? 0)%Z eqn:E; [reflexivity|].
  apply Z.leb_gt in E.
  cbn [filter] in *. rewrite IH.
  destruct (p x) eqn:Px, (p y) eqn:Py; try reflexivity.
  specialize (Hp x y Px Py). lia.
Qed.

Lemma sort_stable (p : A -> bool) (l : list A) :
  (forall a b, p a = true -> p b = true -> (compareFn a b <= 0)%Z) ->
  filter p (Js.sort compareFn l) = filter p l.
Proof.
  intros Hp. induction l as [|x l IH]; [reflexivity|].
  cbn [Js.sort fold_right]. fold (Js.sort compareFn l).
  rewrite insert_filter by assumption.
  cbn [filter]. now rewrite IH.
Qed.

(** For a consistent comparator the result is sorted. *)
Hypothesis total :
  forall a b, (0 < compareFn a b)%Z -> (compareFn b a <= 0)%Z.
Hypothesis trans :
  forall a b c, (compareFn a b <= 0)%Z -> (compareFn b c <= 0)%Z ->
                (compareFn a c <= 0)%Z.

Lemma insert_sorted (x : A) (l : list A) :
  StronglySorted (fun a b => (compareFn a b <= 0)%Z) l ->
  StronglySorted (fun a b => (compareFn a b <= 0)%Z)
                 (Js.insert compareFn x l).
Proof.
  induction 1 as [|y l Hl IH Hy]; cbn [Js.insert].
  - repeat constructor.
  - destruct (compareFn x y <=? 0)%Z eqn:E.
    + apply Z.leb_le in E. constructor; [now constructor|].
      constructor; [exact E|].
      rewrite Forall_forall in *. intros z Hz. eapply trans; eauto.
    + apply Z.leb_gt in E. constructor; [exact IH|].
      rewrite Forall_forall in *. intros z Hz.
      apply (Permutation_in _ (insert_perm x l)) in Hz.
      destruct Hz as [<- | Hz]; [now apply total | now apply Hy].
Qed.

Lemma sort_sorted (l : list A) :
  StronglySorted (fun a b => (compareFn a b <= 0)%Z) (Js.sort compareFn l).
Proof.
  induction l as [|x l IH]; cbn [Js.sort fold_right].
  - constructor.
  - now apply insert_sorted.
Qed.
End SortFacts.

Lemma StronglySorted_ext_le {A : Type} (cmp : A -> A -> Z)
      (R : A -> A -> Prop) (l : list A) :
  (forall a b, (cmp a b <= 0)%Z -> R a b) ->
  StronglySorted (fun a b => (cmp a b <= 0)%Z) l ->
  StronglySorted R l.
Proof.
  intros HR. induction 1 as [|x l Hl IH Hx]; constructor; [exact IH|].
  eapply Forall_impl; [|exact Hx]. intros b. apply HR.
Qed.

(** ** Plain objects as dictionaries *)

Section DictFacts.
Context {V : Type}.
Implicit Types (o : Js.Dict V) (k : string).

Lemma getOwn_update o k k' (f : V -> V) :
  Js.getOwn (Js.update o k f) k' =
  if (k =? k')%string then option_map f (Js.getOwn o k) else Js.getOwn o k'.
Proof.
  induction o as [|[k0 v0] o IH]; simpl.
  - now destruct (k =? k')%string.
  - destruct (k0 =? k)%string eqn:E0; simpl.
    + apply String.eqb_eq in E0. subst k0.
      destruct (k =? k')%string; reflexivity.
    + rewrite IH. destruct (k =? k')%string eqn:E1.
      * apply String.eqb_eq in E1. subst k'. now rewrite E0.
      * reflexivity.
Qed.

Lemma getOwn_snoc o k k' (v : V) :
  Js.getOwn (o ++ [(k, v)]) k' =
  match Js.getOwn o k' with
  | Some a => Some a
  | None => if (k =? k')%string then Some v else None
  end.
Proof.
  induction o as [|[k0 v0] o IH]; simpl.
  - reflexivity.
  - destruct (k0 =? k')%string; [reflexivity | exact IH].
Qed.

Lemma keys_update o k (f : V -> V) :
  map fst (Js.update o k f) = map fst o.
Proof.
  induction o as [|[k0 v0] o IH]; simpl; [reflexivity|].
  destruct (k0 =? k)%string; simpl; [reflexivity | now rewrite IH].
Qed.

Lemma getOwn_None o k : Js.getOwn o k = None <-> ~ In k (map fst o).
Proof.
  induction o as [|[k0 v0] o IH]; simpl.
  - tauto.
  - destruct (k0 =? k)%string eqn:E.
    + apply String.eqb_eq in E. split; [discriminate | intros H; tauto].
    + apply String.eqb_neq in E. rewrite IH. tauto.
Qed.

Lemma getOwn_In o k (v : V) : Js.getOwn o k = Some v -> In (k, v) o.
Proof.
  induction o as [|[k0 v0] o IH]; simpl; [discriminate|].
  destruct (k0 =? k)%string eqn:E.
  - apply String.eqb_eq in E. intros [= ->]. left. now subst.
  - intros H. right. now apply IH.
Qed.

Lemma In_getOwn o k (v : V) :
  NoDup (map fst o) -> In (k, v) o -> Js.getOwn o k = Some v.
Proof.
  induction o as [|[k0 v0] o IH]; simpl; [tauto|].
  intros Hnd [H|H].
  - injection H as -> ->. now rewrite String.eqb_refl.
  - inversion Hnd as [|? ? Hnot Hnd']; subst.
    destruct (k0 =? k)%string eqn:E.
    + apply String.eqb_eq in E. subst k0. exfalso. apply Hnot.
      now apply (in_map fst) in H.
    + now apply IH.
Qed.

Lemma filter_split_perm (p : string * V -> bool) o :
  Permutation (filter p o ++ filter (fun e => negb (p e)) o) o.
Proof.
  induction o as [|e o IH]; simpl; [constructor|].
  destruct (p e); simpl.
  - now constructor.
  - eapply perm_trans; [apply Permutation_sym, Permutation_middle|].
    now constructor.
Qed.

(** [Object.entries] enumerates every own property exactly once. *)
Lemma entries_perm o : Permutation (Js.entries o) o.
Proof.
  unfold Js.entries.
  eapply perm_trans; [|apply (filter_split_perm
                                 (fun e => Js.isArrayIndex (fst e)))].
  apply Permutation_app_tail, sort_perm.
Qed.

End DictFacts.

(** ** The loop that fills [groups] *)

Lemma existsb_eqb_In (k : string) (l : list string) :
  existsb (String.eqb k) l = true <-> In k l.
Proof.
  rewrite existsb_exists. split.
  - intros [x [Hx E]]. apply String.eqb_eq in E. now subst.
  - intros H. exists k. split; [exact H | apply String.eqb_refl].
Qed.

Lemma noteKey_NoDup (seen : list string) (k : string) :
  NoDup seen -> NoDup (noteKey seen k).
Proof.
  intros H. unfold noteKey. destruct (existsb _ seen) eqn:E; [exact H|].
  apply NoDup_app; [exact H | repeat constructor; simpl; tauto |].
  intros x Hx. simpl. intros [<- | H0]; [|exact H0].
  apply existsb_eqb_In in Hx. congruence.
Qed.

Lemma noteKey_In (seen : list string) (k x : string) :
  In x (noteKey seen k) <-> In x seen \/ x = k.
Proof.
  unfold noteKey. destruct (existsb _ seen) eqn:E.
  - apply existsb_eqb_In in E. split; [tauto | intros [H | ->]; assumption].
  - rewrite in_app_iff. simpl. intuition.
Qed.

Lemma fold_noteKey_NoDup (ks seen : list string) :
  NoDup seen -> NoDup (fold_left noteKey ks seen).
Proof.
  revert seen. induction ks as [|k ks IH]; simpl; intros seen H; [exact H|].
  now apply IH, noteKey_NoDup.
Qed.

Lemma fold_noteKey_In (ks seen : list string) (x : string) :
  In x (fold_left noteKey ks seen) <-> In x seen \/ In x ks.
Proof.
  revert seen. induction ks as [|k ks IH]; simpl; intros seen; [tauto|].
  rewrite IH, noteKey_In. intuition.
Qed.

Section Grouping.
Variable keyFn : IntentRecord -> option string.

Lemma addRecord_getOwn groups rec groups' :
  addRecord keyFn groups rec = Ok groups' ->
  forall k,
    Js.getOwn groups' k =
    if hasKey keyFn k rec
    then Some (match Js.getOwn groups k with
               | Some arr => arr ++ [rec]
               | None => [rec]
               end)
    else Js.getOwn groups k.
Proof.
  unfold addRecord, hasKey. intros H k.
  destruct (Js.getOwn groups (groupKey keyFn rec)) as [arr|] eqn:G.
  - injection H as <-. rewrite getOwn_update.
    destruct (groupKey keyFn rec =? k)%string eqn:E; [|reflexivity].
    apply String.eqb_eq in E. subst k. now rewrite G.
  - destruct (Js.inherited _); [discriminate|]. injection H as <-.
    rewrite getOwn_snoc.
    destruct (groupKey keyFn rec =? k)%string eqn:E.
    + apply String.eqb_eq in E. subst k. now rewrite G.
    + now destruct (Js.getOwn groups k).
Qed.

Lemma addRecord_keys groups rec groups' :
  addRecord keyFn groups rec = Ok groups' ->
  map fst groups' = noteKey (map fst groups) (groupKey keyFn rec).
Proof.
  unfold addRecord, noteKey. intros H.
  destruct (Js.getOwn groups (groupKey keyFn rec)) as [arr|] eqn:G.
  - injection H as <-. rewrite keys_update.
    destruct (existsb _ _) eqn:E; [reflexivity|].
    assert (Hn : ~ In (groupKey keyFn rec) (map fst groups)).
    { intros Hin. apply existsb_eqb_In in Hin. congruence. }
    apply getOwn_None in Hn. congruence.
  - destruct (Js.inherited _); [discriminate|]. injection H as <-.
    apply getOwn_None in G.
    destruct (existsb _ _) eqn:E.
    + apply existsb_eqb_In in E. contradiction.
    + now rewrite map_app.
Qed.

Lemma groupsSize_update groups k rec arr :
  Js.getOwn groups k = Some arr ->
  groupsSize (Js.update groups k (fun a => a ++ [rec])) = S (groupsSize groups).
Proof.
  induction groups as [|[k0 v0] groups IH]; simpl; [discriminate|].
  destruct (k0 =? k)%string; simpl.
  - intros _. rewrite length_app. simpl. lia.
  - intros H. rewrite (IH H). lia.
Qed.

Lemma groupsSize_snoc groups k arr :
  groupsSize (groups ++ [(k, arr)]) = (groupsSize groups + List.length arr)%nat.
Proof.
  induction groups as [|e groups IH]; simpl; [lia|]. rewrite IH. lia.
Qed.

Lemma addRecord_size groups rec groups' :
  addRecord keyFn groups rec = Ok groups' ->
  groupsSize groups' = S (groupsSize groups).
Proof.
  unfold addRecord. intros H.
  destruct (Js.getOwn groups (groupKey keyFn rec)) as [arr|] eqn:G.
  - injection H as <-. eapply groupsSize_update; eauto.
  - destruct (Js.inherited _); [discriminate|]. injection H as <-.
    rewrite groupsSize_snoc. simpl. lia.
Qed.

(** The loop, from any starting object. *)
Lemma fillGroups_size recs : forall groups groups',
  fillGroups keyFn groups recs = Ok groups' ->
  groupsSize groups' = (groupsSize groups + List.length recs)%nat.
Proof.
  induction recs as [|rec recs IH]; simpl; intros groups groups' H.
  - injection H as <-. lia.
  - destruct (addRecord keyFn groups rec) as [g1|] eqn:E; [|discriminate].
    simpl in H. rewrite (IH _ _ H), (addRecord_size _ _ _ E). lia.
Qed.

Lemma fillGroups_keys recs : forall groups groups',
  fillGroups keyFn groups recs = Ok groups' ->
  map fst groups' =
  fold_left noteKey (map (groupKey keyFn) recs) (map fst groups).
Proof.
  induction recs as [|rec recs IH]; simpl; intros groups groups' H.
  - now injection H as <-.
  - destruct (addRecord keyFn groups rec) as [g1|] eqn:E; [|discriminate].
    simpl in H. rewrite (IH _ _ H). now rewrite (addRecord_keys _ _ _ E).
Qed.

Lemma fillGroups_getOwn recs : forall groups groups',
  fillGroups keyFn groups recs = Ok groups' ->
  forall k,
    Js.getOwn groups' k =
    match Js.getOwn groups k, filter (hasKey keyFn k) recs with
    | Some arr, l => Some (arr ++ l)
    | None, [] => None
    | None, l => Some l
    end.
Proof.
  induction recs as [|rec recs IH]; simpl; intros groups groups' H k.
  - injection H as <-. destruct (Js.getOwn groups k); [|reflexivity].
    now rewrite app_nil_r.
  - destruct (addRecord keyFn groups rec) as [g1|] eqn:E; [|discriminate].
    simpl in H. rewrite (IH _ _ H k), (addRecord_getOwn _ _ _ E k).
    destruct (hasKey keyFn k rec).
    + destruct (Js.getOwn groups k); [now rewrite <- app_assoc | reflexivity].
    + reflexivity.
Qed.

(** The loop completes exactly when no record's key names a property
    inherited from [Object.prototype]. *)
Lemma fillGroups_returns recs : forall groups,
  (forall r, In r recs -> Js.inherited (groupKey keyFn r) = false) ->
  exists groups', fillGroups keyFn groups recs = Ok groups'.
Proof.
  induction recs as [|rec recs IH]; simpl; intros groups H.
  - now exists groups.
  - unfold addRecord at 1. rewrite (H rec (or_introl eq_refl)).
    destruct (Js.getOwn groups _); simpl; apply IH; auto.
Qed.

Lemma fillGroups_throws recs : forall groups r,
  In r recs -> Js.inherited (groupKey keyFn r) = true ->
  (forall k, In k (map fst groups) -> Js.inherited k = false) ->
  fillGroups keyFn groups recs = TypeError.
Proof.
  induction recs as [|rec recs IH]; simpl; intros groups r Hin Hr Hg;
    [contradiction|].
  destruct (addRecord keyFn groups rec) as [g1|] eqn:E; [|reflexivity].
  simpl. destruct Hin as [-> | Hin].
  - exfalso. unfold addRecord in E.
    destruct (Js.getOwn groups (groupKey keyFn r)) eqn:G.
    + apply getOwn_In, (in_map fst) in G. apply Hg in G. simpl in G.
      congruence.
    + rewrite Hr in E. discriminate.
  - apply (IH g1 r Hin Hr). intros k Hk.
    rewrite (addRecord_keys _ _ _ E) in Hk. apply noteKey_In in Hk.
    destruct Hk as [Hk | ->]; [now apply Hg|].
    unfold addRecord in E.
    destruct (Js.getOwn groups (groupKey keyFn rec)) eqn:G.
    + apply getOwn_In, (in_map fst) in G. now apply Hg in G.
    + now destruct (Js.inherited (groupKey keyFn rec)).
Qed.

(** What [groups] holds once the loop is over: one own property per
    distinct key, in order of first occurrence, holding the records of
    that key in input order. *)
Lemma fillGroups_spec recs groups :
  fillGroups keyFn [] recs = Ok groups ->
  groups = map (fun k => (k, filter (hasKey keyFn k) recs))
               (firstOccurrences (map (groupKey keyFn) recs)).
Proof.
  intros H.
  pose proof (fillGroups_keys _ _ _ H) as Hk. simpl in Hk.
  fold (firstOccurrences (map (groupKey keyFn) recs)) in Hk.
  assert (Hnd : NoDup (map fst groups)).
  { rewrite Hk. apply fold_noteKey_NoDup. constructor. }
  rewrite <- Hk. clear Hk.
  assert (Hv : forall k v, In (k, v) groups -> v = filter (hasKey keyFn k) recs).
  { intros k v Hin. apply (In_getOwn _ _ _ Hnd) in Hin.
    rewrite (fillGroups_getOwn _ _ _ H k) in Hin. simpl in Hin.
    destruct (filter (hasKey keyFn k) recs); congruence. }
  clear Hnd H. induction groups as [|[k v] groups IH]; simpl; [reflexivity|].
  rewrite <- IH by (intros; apply Hv; now right).
  now rewrite (Hv k v (or_introl eq_refl)).
Qed.
End Grouping.

(** ** Trees built by [groupRecords] *)

Lemma sumCounts_perm (l l' : list DirectoryNode) :
  Permutation l l' -> sumCounts l = sumCounts l'.
Proof.
  induction 1; simpl; lia.
Qed.

Section GroupTree.
Variable localeCompare : string -> string -> Z.
Variable keyFn : IntentRecord -> option string.
Variable sortMode : SortMode.

Lemma sumCounts_groupNode (g : Groups) :
  sumCounts (map (groupNode localeCompare sortMode) g) =
  Z.of_nat (groupsSize g).
Proof.
  induction g as [|[k arr] g IH]; simpl; [reflexivity|].
  rewrite IH. lia.
Qed.

Lemma nodes_groupNode (e : string * list IntentRecord) :
  nodes (groupNode localeCompare sortMode e) =
  [groupNode localeCompare sortMode e].
Proof. now destruct e. Qed.

Lemma countBalanced_groupNode (e : string * list IntentRecord) :
  countBalanced (groupNode localeCompare sortMode e).
Proof.
  destruct e as [k arr]. unfold countBalanced. simpl.
  rewrite sort_length. lia.
Qed.

(** The shape of a returned tree. *)
Lemma groupRecords_Ok (recs : list IntentRecord) (tree : DirectoryNode) :
  groupRecords localeCompare recs keyFn sortMode = Ok tree ->
  exists groups,
    fillGroups keyFn [] recs = Ok groups /\
    tree = {| name := "Root";
              node_path := "/";
              count := Z.of_nat (List.length recs);
              children :=
                Js.sort (compareGroups localeCompare sortMode)
                        (map (groupNode localeCompare sortMode)
                             (Js.entries groups));
              records := [] |}.
Proof.
  unfold groupRecords. destruct (fillGroups keyFn [] recs) as [g|];
    simpl; [|discriminate].
  intros [= <-]. now exists g.
Qed.

Lemma groupRecords_children (recs : list IntentRecord) tree groups :
  groupRecords localeCompare recs keyFn sortMode = Ok tree ->
  fillGroups keyFn [] recs = Ok groups ->
  Permutation (children tree)
              (map (groupNode localeCompare sortMode) groups).
Proof.
  intros H Hg. apply groupRecords_Ok in H. destruct H as [g [Hg' ->]].
  rewrite Hg in Hg'. injection Hg' as <-. simpl.
  eapply perm_trans; [apply sort_perm|].
  apply Permutation_map, entries_perm.
Qed.
End GroupTree.

Section GroupTreeShape.
Variable localeCompare : string -> string -> Z.
Variable keyFn : IntentRecord -> option string.
Variable sortMode : SortMode.
Variable recs : list IntentRecord.
Variable tree : DirectoryNode.
Hypothesis returned :
  groupRecords localeCompare recs keyFn sortMode = Ok tree.

(** The children are the groups of the distinct keys, each holding
    the records of its key. *)
Lemma groupRecords_children_spec :
  Permutation
    (children tree)
    (map (fun k => groupNode localeCompare sortMode
                             (k, filter (hasKey keyFn k) recs))
         (firstOccurrences (map (groupKey keyFn) recs))).
Proof.
  destruct (groupRecords_Ok _ _ _ _ _ returned) as [g [Hg _]].
  pose proof (groupRecords_children _ _ _ _ _ _ returned Hg) as Hperm.
  rewrite (fillGroups_spec _ _ _ Hg), map_map in Hperm. exact Hperm.
Qed.

Lemma groupRecords_child_iff (child : DirectoryNode) :
  In child (children tree) <->
  exists k, In k (map (groupKey keyFn) recs) /\
            child = groupNode localeCompare sortMode
                              (k, filter (hasKey keyFn k) recs).
Proof.
  split.
  - intros H. apply (Permutation_in _ groupRecords_children_spec) in H.
    apply in_map_iff in H. destruct H as [k [<- Hk]].
    exists k. split; [|reflexivity].
    apply fold_noteKey_In in Hk. now destruct Hk.
  - intros [k [Hk ->]].
    apply (Permutation_in _ (Permutation_sym groupRecords_children_spec)).
    apply in_map_iff. exists k. split; [reflexivity|].
    apply fold_noteKey_In. now right.
Qed.

Lemma groupRecords_names :
  Permutation (map name (children tree))
              (firstOccurrences (map (groupKey keyFn) recs)).
Proof.
  eapply perm_trans;
    [apply Permutation_map, groupRecords_children_spec|].
  rewrite map_map. simpl. rewrite map_id. apply Permutation_refl.
Qed.

(** A returned tree is flat: a root without records whose children
    are named by the distinct keys, once each, and have no children
    of their own. *)
Lemma groupRecords_flat :
  name tree = "Root" /\
  records tree = [] /\
  NoDup (map name (children tree)) /\
  (forall k, In k (map name (children tree)) <->
             exists r, In r recs /\ groupKey keyFn r = k) /\
  Forall (fun child => children child = []) (children tree).
Proof.
  destruct (groupRecords_Ok _ _ _ _ _ returned) as [g [_ Ht]].
  split; [now rewrite Ht|]. split; [now rewrite Ht|].
  split; [|split].
  - eapply Permutation_NoDup;
      [apply Permutation_sym, groupRecords_names|].
    apply fold_noteKey_NoDup. constructor.
  - intros k. split.
    + intros H. apply (Permutation_in _ groupRecords_names) in H.
      apply fold_noteKey_In in H. destruct H as [[]|H].
      apply in_map_iff in H. destruct H as [r [<- Hr]]. now exists r.
    + intros [r [Hr <-]].
      apply (Permutation_in _ (Permutation_sym groupRecords_names)).
      apply fold_noteKey_In. right. now apply in_map.
  - rewrite Forall_forall. intros child H.
    apply groupRecords_child_iff in H. now destruct H as [k [_ ->]].
Qed.

(** A record sits in the group of its key and in no other. *)
Lemma groupRecords_placement (r : IntentRecord) :
  In r recs ->
  (exists child, In child (children tree) /\
                 name child = groupKey keyFn r /\
                 In r (records child)) /\
  (forall child, In child (children tree) -> In r (records child) ->
                 name child = groupKey keyFn r).
Proof.
  intros Hr. split.
  - exists (groupNode localeCompare sortMode
                      (groupKey keyFn r,
                       filter (hasKey keyFn (groupKey keyFn r)) recs)).
    split; [|split].
    + apply groupRecords_child_iff. exists (groupKey keyFn r).
      split; [now apply in_map | reflexivity].
    + reflexivity.
    + simpl. apply sort_In, filter_In. split; [exact Hr|].
      apply String.eqb_refl.
  - intros child Hc Hin. apply groupRecords_child_iff in Hc.
    destruct Hc as [k [_ ->]]. simpl in *.
    apply sort_In, filter_In in Hin. destruct Hin as [_ Hin].
    apply String.eqb_eq in Hin. now symmetry.
Qed.
End GroupTreeShape.

(** [groupRecords] returns when no key names an inherited property, and
    throws otherwise. *)
Lemma groupRecords_returns
      (localeCompare : string -> string -> Z) (recs : list IntentRecord)
      (keyFn : IntentRecord -> option string) (sortMode : SortMode) :
  (forall r, In r recs -> Js.inherited (groupKey keyFn r) = false) ->
  exists tree, groupRecords localeCompare recs keyFn sortMode = Ok tree.
Proof.
  intros H. unfold groupRecords.
  destruct (fillGroups_returns keyFn recs [] H) as [g ->]. simpl. eauto.
Qed.

Lemma groupRecords_throws
      (localeCompare : string -> string -> Z) (recs : list IntentRecord)
      (keyFn : IntentRecord -> option string) (sortMode : SortMode)
      (r : IntentRecord) :
  In r recs -> Js.inherited (groupKey keyFn r) = true ->
  groupRecords localeCompare recs keyFn sortMode = TypeError.
Proof.
  intros Hr Hk. unfold groupRecords.
  rewrite (fillGroups_throws keyFn recs [] r Hr Hk); [reflexivity|].
  intros k [].
Qed.

(** C1.  In every tree returned by [groupRecords], whatever the records,
    the key function, the sort mode and the host's collation, each
    node's count is the number of records attached to the node plus the
    sum of the counts of its children, and the count of the root is the
    number of input records. *)
Theorem groupRecords_count_invariant
        (localeCompare : string -> string -> Z)
        (recs : list IntentRecord)
        (keyFn : IntentRecord -> option string)
        (sortMode : SortMode) (tree : DirectoryNode) :
  groupRecords localeCompare recs keyFn sortMode = Ok tree ->
  countInvariant tree /\ count tree = Z.of_nat (List.length recs).
Proof.
  intros H. destruct (groupRecords_Ok _ _ _ _ _ H) as [g [Hg Ht]].
  pose proof (groupRecords_children _ _ _ _ _ _ H Hg) as Hperm.
  split; [|now subst tree].
  intros node Hnode.
  assert (Hroot : countBalanced tree).
  { unfold countBalanced. rewrite (sumCounts_perm _ _ Hperm).
    rewrite sumCounts_groupNode, (fillGroups_size _ _ _ _ Hg).
    subst tree. simpl. lia. }
  assert (Hnodes : nodes tree = tree :: flat_map nodes (children tree))
    by now destruct tree.
  rewrite Hnodes in Hnode. destruct Hnode as [<- | Hnode]; [exact Hroot|].
  apply in_flat_map in Hnode. destruct Hnode as [child [Hchild Hnode]].
  apply (Permutation_in _ Hperm) in Hchild.
  apply in_map_iff in Hchild. destruct Hchild as [e [<- _]].
  rewrite nodes_groupNode in Hnode. destruct Hnode as [<- | []].
  apply countBalanced_groupNode.
Qed.

(** The invariant checked on three records of two categories. *)
Lemma groupRecords_count_invariant_witness :
  exists tree,
    groupRecords collate
                 [page "/a" "edit"; page "/b" "upscale"; page "/c" "edit"]
                 byIntent SortCount = Ok tree
    /\ countInvariant tree /\ count tree = 3%Z.
Proof.
  eexists. split; [reflexivity|].
  apply (groupRecords_count_invariant collate
           [page "/a" "edit"; page "/b" "upscale"; page "/c" "edit"]
           byIntent SortCount).
  reflexivity.
Defined.

(** ** Order of the groups *)

Lemma insert_map {A B : Type} (f : A -> B)
      (cmpA : A -> A -> Z) (cmpB : B -> B -> Z) (x : A) (l : list A) :
  (forall a b, cmpB (f a) (f b) = cmpA a b) ->
  Js.insert cmpB (f x) (map f l) = map f (Js.insert cmpA x l).
Proof.
  intros H. induction l as [|y l IH]; simpl; [reflexivity|].
  rewrite H. destruct (cmpA x y <=? 0)%Z; simpl; [reflexivity|].
  now rewrite IH.
Qed.

Lemma sort_map {A B : Type} (f : A -> B)
      (cmpA : A -> A -> Z) (cmpB : B -> B -> Z) (l : list A) :
  (forall a b, cmpB (f a) (f b) = cmpA a b) ->
  Js.sort cmpB (map f l) = map f (Js.sort cmpA l).
Proof.
  intros H. induction l as [|x l IH]; simpl; [reflexivity|].
  fold (Js.sort cmpB (map f l)). fold (Js.sort cmpA l).
  rewrite IH. now apply insert_map.
Qed.

Lemma filter_map_comm {A B : Type} (f : A -> B) (p : B -> bool) (l : list A) :
  filter p (map f l) = map f (filter (fun a => p (f a)) l).
Proof.
  induction l as [|x l IH]; simpl; [reflexivity|].
  destruct (p (f x)); simpl; now rewrite IH.
Qed.

(** [Object.entries] on an object whose properties were created in the
    order [keys]. *)
Lemma entries_map {V : Type} (F : string -> string * V) (keys : list string) :
  (forall k, fst (F k) = k) ->
  Js.entries (map F keys) = map F (Js.propertyOrder keys).
Proof.
  intros HF. unfold Js.entries, Js.propertyOrder.
  rewrite map_app, !filter_map_comm. f_equal.
  - rewrite (sort_map F (fun a b => (Js.indexValue a - Js.indexValue b)%Z)).
    + do 2 f_equal. apply filter_ext. intros k. now rewrite HF.
    + intros a b. now rewrite !HF.
  - f_equal. apply filter_ext. intros k. now rewrite HF.
Qed.

(** The children before the final sort: one group per distinct key, in
    the enumeration order of [groups]. *)
Lemma groupRecords_children_order
      (localeCompare : string -> string -> Z) (recs : list IntentRecord)
      (keyFn : IntentRecord -> option string) (sortMode : SortMode)
      (tree : DirectoryNode) :
  groupRecords localeCompare recs keyFn sortMode = Ok tree ->
  children tree =
  Js.sort (compareGroups localeCompare sortMode)
          (map (fun k => groupNode localeCompare sortMode
                                   (k, filter (hasKey keyFn k) recs))
               (Js.propertyOrder
                  (firstOccurrences (map (groupKey keyFn) recs)))).
Proof.
  intros H. destruct (groupRecords_Ok _ _ _ _ _ H) as [g [Hg ->]]. simpl.
  rewrite (fillGroups_spec _ _ _ Hg).
  rewrite (entries_map (fun k => (k, filter (hasKey keyFn k) recs)))
    by reflexivity.
  now rewrite map_map.
Qed.

(** C3 (as amended).  When the groups are ordered by count, they come in
    descending count, and groups of equal count keep the order in which
    [Object.entries] enumerates them: keys that are array indices first,
    in ascending numeric order, then the other keys in order of first
    appearance among the records.  The names are not compared. *)
Theorem count_order_ties_keep_enumeration_order
        (localeCompare : string -> string -> Z) (recs : list IntentRecord)
        (keyFn : IntentRecord -> option string) (tree : DirectoryNode) :
  groupRecords localeCompare recs keyFn SortCount = Ok tree ->
  StronglySorted (fun a b => (count b <= count a)%Z) (children tree)
  /\ forall c : Z,
       map name (filter (fun child => (count child =? c)%Z) (children tree))
       = filter (fun k => (groupSize keyFn recs k =? c)%Z)
                (Js.propertyOrder
                   (firstOccurrences (map (groupKey keyFn) recs))).
Proof.
  intros H. rewrite (groupRecords_children_order _ _ _ _ _ H). split.
  - apply (StronglySorted_ext_le (compareGroups localeCompare SortCount)).
    + intros a b Hab. simpl in Hab. lia.
    + apply sort_sorted; simpl; intros; lia.
  - intros c. rewrite sort_stable.
    + rewrite filter_map_comm, map_map. simpl. rewrite map_id.
      apply filter_ext. intros k. unfold groupSize. reflexivity.
    + intros a b Ha Hb. apply Z.eqb_eq in Ha, Hb. simpl. lia.
Qed.

Lemma count_order_ties_keep_enumeration_order_witness :
  exists tree,
    groupRecords collate
                 [page "/1" "b"; page "/2" "a"; page "/3" "7"; page "/4" "b"]
                 byIntent SortCount = Ok tree
    /\ StronglySorted (fun a b => (count b <= count a)%Z) (children tree)
    /\ map name (filter (fun child => (count child =? 1)%Z) (children tree))
       = ["7"; "a"].
Proof.
  eexists. split; [reflexivity|].
  pose proof (count_order_ties_keep_enumeration_order collate
                [page "/1" "b"; page "/2" "a"; page "/3" "7"; page "/4" "b"]
                byIntent _ eq_refl) as [Hsorted Hties].
  split; [exact Hsorted|].
  rewrite (Hties 1%Z). reflexivity.
Defined.

(** C3 (as stated) fails: two groups of one record each stay in the
    order of first appearance, [b] before [a], although [a] precedes
    [b] by name. *)
Lemma count_order_ties_not_by_name :
  exists tree first second,
    groupRecords collate [page "/1" "b"; page "/2" "a"] byIntent SortCount
    = Ok tree
    /\ children tree = [first; second]
    /\ count first = count second
    /\ name first = "b" /\ name second = "a"
    /\ (0 < compareGroups collate SortName first second)%Z.
Proof.
  do 3 eexists. split; [reflexivity|].
  split; [reflexivity|]. repeat split.
Qed.

(** ** The host collation [collate] is a consistent comparator *)

Lemma ascii_compare_refl (a : ascii) : Ascii.compare a a = Eq.
Proof. apply N.compare_refl. Qed.

Lemma string_compare_refl (a : string) : String.compare a a = Eq.
Proof.
  induction a as [|c a IH]; simpl; [reflexivity|].
  now rewrite ascii_compare_refl.
Qed.

Lemma string_compare_trans (a : string) : forall b c,
  String.compare a b = Lt -> String.compare b c = Lt ->
  String.compare a c = Lt.
Proof.
  induction a as [|x a IH]; intros [|y b] [|z c]; simpl;
    try discriminate; try reflexivity.
  destruct (Ascii.compare x y) eqn:Exy, (Ascii.compare y z) eqn:Eyz;
    try discriminate; intros Hab Hbc.
  - apply Ascii.compare_eq_iff in Exy, Eyz. subst.
    rewrite ascii_compare_refl. now apply (IH b).
  - apply Ascii.compare_eq_iff in Exy. subst. now rewrite Eyz.
  - apply Ascii.compare_eq_iff in Eyz. subst. now rewrite Exy.
  - unfold Ascii.compare in *. rewrite N.compare_lt_iff in *.
    assert (H : (N_of_ascii x < N_of_ascii z)%N) by lia.
    apply N.compare_lt_iff in H. now rewrite H.
Qed.

Lemma string_compare_Gt (a b : string) :
  String.compare a b = Gt <-> String.compare b a = Lt.
Proof.
  rewrite (String.compare_antisym a b).
  destruct (String.compare b a); simpl; split; congruence.
Qed.

Lemma collate_le (a b : string) :
  (collate a b <= 0)%Z <->
  String.compare (Js.toLowerCase a) (Js.toLowerCase b) = Lt
  \/ (Js.toLowerCase a = Js.toLowerCase b /\ String.compare a b <> Lt).
Proof.
  unfold collate.
  destruct (String.compare (Js.toLowerCase a) (Js.toLowerCase b)) eqn:E.
  - apply String.compare_eq_iff in E.
    destruct (String.compare a b); split; intros H;
      try lia; try (right; split; [exact E | discriminate]);
      destruct H as [H | [_ H]]; congruence.
  - split; [now left | lia].
  - split; [lia|]. intros [H | [H _]]; [discriminate|].
    rewrite H, string_compare_refl in E. discriminate.
Qed.

Lemma collate_total (a b : string) :
  (0 < collate a b)%Z -> (collate b a <= 0)%Z.
Proof.
  intros H. apply collate_le. unfold collate in H.
  destruct (String.compare (Js.toLowerCase a) (Js.toLowerCase b)) eqn:E.
  - apply String.compare_eq_iff in E. right. split; [now symmetry|].
    destruct (String.compare a b) eqn:Eab; try lia.
    intros Hba. apply string_compare_Gt in Hba. congruence.
  - lia.
  - left. now apply string_compare_Gt.
Qed.

Lemma collate_trans (a b c : string) :
  (collate a b <= 0)%Z -> (collate b c <= 0)%Z -> (collate a c <= 0)%Z.
Proof.
  rewrite !collate_le. intros [Hab | [Eab Hab]] [Hbc | [Ebc Hbc]].
  - left. eapply string_compare_trans; eauto.
  - left. now rewrite <- Ebc.
  - left. now rewrite Eab.
  - right. split; [congruence|]. intros Hac.
    destruct (String.compare a b) eqn:E; [| contradiction |].
    + apply String.compare_eq_iff in E. subst. contradiction.
    + apply string_compare_Gt in E.
      apply Hbc. eapply string_compare_trans; eauto.
Qed.

(** C6 (as amended).  When the groups are ordered by name, they are
    sorted by the host's [localeCompare] applied to the names as they
    are: the code folds no case, so how two names that differ only in
    case compare is decided by the host's collation alone. *)
Theorem name_order_is_host_collation
        (localeCompare : string -> string -> Z) (recs : list IntentRecord)
        (keyFn : IntentRecord -> option string) (tree : DirectoryNode) :
  (forall a b, (0 < localeCompare a b)%Z -> (localeCompare b a <= 0)%Z) ->
  (forall a b c, (localeCompare a b <= 0)%Z -> (localeCompare b c <= 0)%Z ->
                 (localeCompare a c <= 0)%Z) ->
  groupRecords localeCompare recs keyFn SortName = Ok tree ->
  StronglySorted (fun a b => (localeCompare (name a) (name b) <= 0)%Z)
                 (children tree).
Proof.
  intros Htotal Htrans H.
  rewrite (groupRecords_children_order _ _ _ _ _ H).
  apply (sort_sorted (compareGroups localeCompare SortName)).
  - intros a b. apply Htotal.
  - intros a b c. apply Htrans.
Qed.

Lemma name_order_is_host_collation_witness :
  exists tree,
    groupRecords collate
                 [page "/1" "upscale"; page "/2" "Edit"; page "/3" "blur"]
                 byIntent SortName = Ok tree
    /\ map name (children tree) = ["blur"; "Edit"; "upscale"]
    /\ StronglySorted (fun a b => (collate (name a) (name b) <= 0)%Z)
                      (children tree).
Proof.
  eexists. split; [reflexivity|]. split; [reflexivity|].
  apply (name_order_is_host_collation collate
           [page "/1" "upscale"; page "/2" "Edit"; page "/3" "blur"]
           byIntent _ collate_total collate_trans).
  reflexivity.
Defined.

(** C6 (as stated) fails: the names [A] and [a] differ only in case, yet
    they do not compare equal.  The groups are exchanged by the sort,
    which keeps elements that compare equal in place. *)
Lemma name_order_distinguishes_case :
  exists tree first second,
    groupRecords collate [page "/1" "A"; page "/2" "a"] byIntent SortName
    = Ok tree
    /\ children tree = [first; second]
    /\ name first = "a" /\ name second = "A"
    /\ Js.toLowerCase (name first) = Js.toLowerCase (name second)
    /\ compareGroups collate SortName first second <> 0%Z.
Proof.
  do 3 eexists. split; [reflexivity|].
  split; [reflexivity|]. repeat split. discriminate.
Qed.

(** Whenever the Intent or the Media view builds its tree, the tree is
    flat: a root named [Root] without records, one child per distinct
    key, and no grandchildren. *)
Lemma views_flat
      (localeCompare : string -> string -> Z) (data : SitemapSummary)
      (activeSite : string) (viewMode : ViewMode) (sortMode : SortMode)
      (tree : DirectoryNode) :
  viewMode <> Structure ->
  virtualRoot localeCompare data activeSite viewMode sortMode = Ok tree ->
  name tree = "Root" /\
  records tree = [] /\
  NoDup (map name (children tree)) /\
  (forall k, In k (map name (children tree)) <->
             exists r, In r (baseRecords data) /\
                       groupKey (viewKey viewMode) r = k) /\
  Forall (fun child => children child = []) (children tree).
Proof.
  intros Hview H. destruct viewMode; [contradiction | |];
    exact (groupRecords_flat _ _ _ _ _ H).
Qed.

(** C2.  The Intent and Media views do not build their flat one-level
    tree for every record collection: when a record's category (or
    object) is the name of a property that [{}] inherits from
    [Object.prototype], such as [constructor], [groups[key]] is truthy
    without being an array and [groupRecords] throws a [TypeError],
    whatever the sort mode and the host's collation.  (On every other
    collection the tree is built and is flat: [groupRecords_returns],
    [views_flat].) *)
Theorem views_throw_on_inherited_key
        (localeCompare : string -> string -> Z) (sortMode : SortMode) :
  virtualRoot localeCompare
              (singleNodeSite [page "/docs/constructor" "constructor"])
              "example.com" Intent sortMode = TypeError
  /\ virtualRoot localeCompare
                 (singleNodeSite [mediaPage "/docs/constructor" "constructor"])
                 "example.com" Media sortMode = TypeError.
Proof.
  split; reflexivity.
Qed.

(** The key a record is grouped under when its key value is missing or
    empty. *)
Lemma groupKey_missing
      (keyFn : IntentRecord -> option string) (r : IntentRecord) :
  keyFn r = None \/ keyFn r = Some "" ->
  groupKey keyFn r = "Uncategorized".
Proof.
  unfold groupKey. now intros [-> | ->].
Qed.

(** In a returned tree, a record whose key value is missing or empty is
    in the group named [Uncategorized] and in no other group. *)
Lemma uncategorized_placement
      (localeCompare : string -> string -> Z) (recs : list IntentRecord)
      (keyFn : IntentRecord -> option string) (sortMode : SortMode)
      (tree : DirectoryNode) (r : IntentRecord) :
  groupRecords localeCompare recs keyFn sortMode = Ok tree ->
  In r recs ->
  keyFn r = None \/ keyFn r = Some "" ->
  (exists child, In child (children tree) /\
                 name child = "Uncategorized" /\ In r (records child)) /\
  (forall child, In child (children tree) -> In r (records child) ->
                 name child = "Uncategorized").
Proof.
  intros H Hr Hk.
  rewrite <- (groupKey_missing keyFn r Hk).
  exact (groupRecords_placement _ _ _ _ _ H r Hr).
Qed.

(** C4.  A record without a key value is not always placed in the
    [Uncategorized] group: when another record of the collection has a
    key that names a property inherited from [Object.prototype],
    [groupRecords] throws and returns no group at all.  (Whenever a tree
    is returned the record is in [Uncategorized] and nowhere else:
    [uncategorized_placement].) *)
Theorem uncategorized_lost_on_inherited_key
        (localeCompare : string -> string -> Z) (sortMode : SortMode) :
  groupRecords localeCompare
               [page "/pricing" ""; page "/docs/constructor" "constructor"]
               byIntent sortMode = TypeError.
Proof.
  reflexivity.
Qed.

(** The loop on five records of two keys. *)
Lemma fillGroups_scenario
      (keyFn : IntentRecord -> option string)
      (r1 r2 r3 r4 r5 : IntentRecord) (kx ky : string) :
  groupKey keyFn r1 = kx -> groupKey keyFn r2 = kx ->
  groupKey keyFn r3 = ky -> groupKey keyFn r4 = ky ->
  groupKey keyFn r5 = ky ->
  kx <> ky -> Js.inherited kx = false -> Js.inherited ky = false ->
  fillGroups keyFn [] [r1; r2; r3; r4; r5]
  = Ok [(kx, [r1; r2]); (ky, [r3; r4; r5])].
Proof.
  intros H1 H2 H3 H4 H5 Hne Hix Hiy.
  apply String.eqb_neq in Hne.
  unfold fillGroups, addRecord. cbv zeta.
  rewrite H1, H2, H3, H4, H5.
  repeat (cbn [Js.getOwn Js.update bind app];
          rewrite ?String.eqb_refl, ?Hne, ?Hix, ?Hiy).
  reflexivity.
Qed.

(** Two groups, the second larger than the first, ordered by count:
    the larger one comes first, in whichever order [Object.entries]
    enumerates them. *)
Lemma two_groups_by_count
      (localeCompare : string -> string -> Z) (kx ky : string)
      (a b : list IntentRecord) :
  (List.length a < List.length b)%nat ->
  Js.sort (compareGroups localeCompare SortCount)
          (map (groupNode localeCompare SortCount)
               (Js.entries [(kx, a); (ky, b)]))
  = [groupNode localeCompare SortCount (ky, b);
     groupNode localeCompare SortCount (kx, a)].
Proof.
  intros Hlen.
  destruct (Permutation_length_2_inv
              (Permutation_sym (entries_perm [(kx, a); (ky, b)])))
    as [-> | ->]; cbn [map Js.sort fold_right Js.insert compareGroups
                        groupNode count].
  - replace (Z.of_nat (List.length b) - Z.of_nat (List.length a) <=? 0)%Z
      with false; [reflexivity|].
    symmetry. apply Z.leb_gt. lia.
  - replace (Z.of_nat (List.length a) - Z.of_nat (List.length b) <=? 0)%Z
      with true; [reflexivity|].
    symmetry. apply Z.leb_le. lia.
Qed.

(** C5.  Five records whose categories are x, x, y, y, y, for any two
    categories x and y that make two groups, grouped by category and
    ordered by count: whenever the tree is built it is the root with
    exactly two groups, the group of y with its three records first,
    then the group of x with its two; and the tree is built unless the
    name of a group is a property inherited from [Object.prototype]. *)
Theorem grouping_scenario
        (localeCompare : string -> string -> Z)
        (r1 r2 r3 r4 r5 : IntentRecord) (x y : string) :
  intent_category r1 = x -> intent_category r2 = x ->
  intent_category r3 = y -> intent_category r4 = y ->
  intent_category r5 = y ->
  categoryGroup x <> categoryGroup y ->
  let expected :=
    {| name := "Root";
       node_path := "/";
       count := 5;
       children :=
         [ {| name := categoryGroup y;
              node_path := ("/" ++ categoryGroup y)%string;
              count := 3; children := [];
              records := Js.sort (compareRecords localeCompare SortCount)
                                 [r3; r4; r5] |};
           {| name := categoryGroup x;
              node_path := ("/" ++ categoryGroup x)%string;
              count := 2; children := [];
              records := Js.sort (compareRecords localeCompare SortCount)
                                 [r1; r2] |} ];
       records := [] |} in
  (Js.inherited (categoryGroup x) = false ->
   Js.inherited (categoryGroup y) = false ->
   groupRecords localeCompare [r1; r2; r3; r4; r5] byIntent SortCount
   = Ok expected)
  /\ (forall tree,
         groupRecords localeCompare [r1; r2; r3; r4; r5] byIntent SortCount
         = Ok tree ->
         tree = expected).
Proof.
  intros H1 H2 H3 H4 H5 Hne expected.
  assert (Hk : forall r c, intent_category r = c ->
                           groupKey byIntent r = categoryGroup c).
  { intros r c <-. reflexivity. }
  assert (Hbuilt : Js.inherited (categoryGroup x) = false ->
                   Js.inherited (categoryGroup y) = false ->
                   groupRecords localeCompare [r1; r2; r3; r4; r5]
                                byIntent SortCount = Ok expected).
  { intros Hix Hiy. unfold groupRecords.
    rewrite (fillGroups_scenario byIntent r1 r2 r3 r4 r5
               (categoryGroup x) (categoryGroup y)); auto.
    cbn [bind]. rewrite two_groups_by_count by (simpl; lia).
    reflexivity. }
  split; [exact Hbuilt|].
  intros tree Htree.
  destruct (Js.inherited (categoryGroup x)) eqn:Eix.
  - rewrite (groupRecords_throws localeCompare _ byIntent SortCount r1)
      in Htree; [discriminate | now left |].
    now rewrite (Hk r1 x H1).
  - destruct (Js.inherited (categoryGroup y)) eqn:Eiy.
    + rewrite (groupRecords_throws localeCompare _ byIntent SortCount r3)
        in Htree; [discriminate | simpl; tauto |].
      now rewrite (Hk r3 y H3).
    + rewrite (Hbuilt eq_refl eq_refl) in Htree. now injection Htree.
Qed.

(** The scenario with an ordinary category and one that is an array
    index, which [Object.entries] enumerates first. *)
Lemma grouping_scenario_witness :
  groupRecords collate
               [page "/1" "edit"; page "/2" "edit"; page "/3" "404";
                page "/4" "404"; page "/5" "404"]
               byIntent SortCount
  = Ok {| name := "Root"; node_path := "/"; count := 5;
          children :=
            [ {| name := "404"; node_path := "/404"; count := 3;
                 children := [];
                 records := [page "/3" "404"; page "/4" "404";
                             page "/5" "404"] |};
              {| name := "edit"; node_path := "/edit"; count := 2;
                 children := [];
                 records := [page "/1" "edit"; page "/2" "edit"] |} ];
          records := [] |}.
Proof.
  apply (proj1 (grouping_scenario collate
                  (page "/1" "edit") (page "/2" "edit") (page "/3" "404")
                  (page "/4" "404") (page "/5" "404") "edit" "404"
                  eq_refl eq_refl eq_refl eq_refl eq_refl
                  ltac:(discriminate)));
    reflexivity.
Defined.

(** ** The summary document *)

(** C7.  The summary document the dashboard consumes is declared with
    exactly the fields the specification lists: [schema_version],
    [by_intent_category] (entries with [intent_category], [url_count],
    [sample_urls]), [by_action_object] (entries with [action], [object],
    [url_count], [sample_urls]), [total_urls],
    [coverage_strict_percentage], [coverage_any_percentage] and
    [directory_tree]; none of them is optional. *)
Theorem summary_document_shape :
  shapeOf SitemapSummary_interface = spec_SummaryDocument_shape
  /\ forallb (fun f => negb (field_optional f))
             (SitemapSummary_interface ++ IntentGroup_interface
              ++ ActionObjectGroup_interface) = true.
Proof.
  split; reflexivity.
Qed.

(** ** Collecting the records of a tree *)


Lemma fold_left_concat {A B : Type} (f : B -> list A) (l : list B) :
  forall init,
    fold_left (fun acc x => acc ++ f x) l init = init ++ flat_map f l.
Proof.
  induction l as [|x l IH]; simpl; intros init.
  - now rewrite app_nil_r.
  - now rewrite IH, app_assoc.
Qed.

Lemma getAllRecords_unfold (node : DirectoryNode) :
  getAllRecords node =
  records node ++ flat_map getAllRecords (children node).
Proof.
  destruct node as [nm p c ch rs]. simpl. apply fold_left_concat.
Qed.

Lemma nodes_unfold (node : DirectoryNode) :
  nodes node = node :: flat_map nodes (children node).
Proof. now destruct node. Qed.

Lemma flat_map_flat_map {A B C : Type} (f : A -> list B) (g : B -> list C)
      (l : list A) :
  flat_map g (flat_map f l) = flat_map (fun a => flat_map g (f a)) l.
Proof.
  induction l as [|a l IH]; simpl; [reflexivity|].
  now rewrite flat_map_app, IH.
Qed.

Lemma flat_map_ext_Forall {A B : Type} (f g : A -> list B) (l : list A) :
  Forall (fun a => f a = g a) l -> flat_map f l = flat_map g l.
Proof.
  induction 1 as [|a l Ha _ IH]; simpl; [reflexivity|]. now rewrite Ha, IH.
Qed.

(** The collected records are those attached to the nodes of the tree,
    node after node. *)
Lemma getAllRecords_nodes (tree : DirectoryNode) :
  getAllRecords tree = flat_map records (nodes tree).
Proof.
  induction tree as [nm p c ch rs IH] using DirectoryNode_tree_ind.
  rewrite getAllRecords_unfold, nodes_unfold. simpl. f_equal.
  rewrite flat_map_flat_map. now apply flat_map_ext_Forall.
Qed.

Lemma countInvariant_children (tree child : DirectoryNode) :
  countInvariant tree -> In child (children tree) -> countInvariant child.
Proof.
  intros H Hc node Hn. apply H. rewrite nodes_unfold. right.
  apply in_flat_map. now exists child.
Qed.

Lemma getAllRecords_length (tree : DirectoryNode) :
  countInvariant tree ->
  Z.of_nat (List.length (getAllRecords tree)) = count tree.
Proof.
  induction tree as [nm p c ch rs IH] using DirectoryNode_tree_ind.
  intros Hinv.
  assert (Hroot : countBalanced (mkDirectoryNode nm p c ch rs)).
  { apply Hinv. rewrite nodes_unfold. now left. }
  unfold countBalanced in Hroot. simpl in Hroot. rewrite Hroot.
  rewrite getAllRecords_unfold, length_app, Nat2Z.inj_add. simpl. f_equal.
  assert (Hch : forall child, In child ch -> countInvariant child).
  { intros child Hc. now apply (countInvariant_children _ _ Hinv). }
  clear Hinv Hroot. induction ch as [|child ch IHch]; simpl; [reflexivity|].
  inversion IH as [|? ? Hchild Hrest]; subst.
  rewrite length_app, Nat2Z.inj_add.
  rewrite (Hchild (Hch child (or_introl eq_refl))).
  f_equal. apply IHch; [exact Hrest|]. intros c' Hc'. apply Hch. now right.
Qed.

Lemma filter_flat_map_length {A B : Type} (p : B -> bool) (f : A -> list B)
      (l : list A) :
  List.length (filter p (flat_map f l)) =
  list_sum (map (fun a => List.length (filter p (f a))) l).
Proof.
  induction l as [|a l IH]; simpl; [reflexivity|].
  now rewrite filter_app, length_app, IH.
Qed.

(** C8.  [getAllRecords] returns the records of the node followed by
    those of each child, collected in the same way, child after child;
    on a tree that satisfies the count invariant it returns as many
    records as the count of the root; and the New Arrivals figure is the
    number of [is_new] records over all the nodes of the tree. *)
Theorem getAllRecords_collects_whole_tree :
  (forall node,
      getAllRecords node =
      records node ++ flat_map getAllRecords (children node))
  /\ (forall tree,
         countInvariant tree ->
         Z.of_nat (List.length (getAllRecords tree)) = count tree)
  /\ (forall data,
         newUrlCount data =
         list_sum (map (fun node => List.length (filter isNew (records node)))
                       (nodes (directory_tree data)))).
Proof.
  split; [exact getAllRecords_unfold|].
  split; [exact getAllRecords_length|].
  intros data. unfold newUrlCount.
  rewrite getAllRecords_nodes. apply filter_flat_map_length.
Qed.

Lemma sampleTree_countInvariant : countInvariant sampleTree.
Proof.
  intros node Hnode. simpl in Hnode.
  destruct Hnode as [<- | [<- | []]]; reflexivity.
Qed.

Lemma getAllRecords_collects_whole_tree_witness :
  countInvariant sampleTree
  /\ Z.of_nat (List.length (getAllRecords sampleTree)) = count sampleTree.
Proof.
  split; [exact sampleTree_countInvariant|].
  apply (proj1 (proj2 getAllRecords_collects_whole_tree) sampleTree).
  exact sampleTree_countInvariant.
Defined.

(** ** Breadcrumb navigation *)

Lemma find_first (segment : string) (before after : list DirectoryNode)
      (child : DirectoryNode) :
  name child = segment ->
  (forall c, In c before -> name c <> segment) ->
  find (fun c => (name c =? segment)%string) (before ++ child :: after)
  = Some child.
Proof.
  intros Hname. induction before as [|c before IH]; simpl; intros Hbefore.
  - apply String.eqb_eq in Hname. now rewrite Hname.
  - destruct (name c =? segment)%string eqn:E.
    + apply String.eqb_eq in E. exfalso. apply (Hbefore c); auto.
    + apply IH. intros c' Hc'. apply Hbefore. now right.
Qed.

Lemma find_no_match (segment : string) (l : list DirectoryNode) :
  (forall c, In c l -> name c <> segment) ->
  find (fun c => (name c =? segment)%string) l = None.
Proof.
  induction l as [|c l IH]; simpl; intros H; [reflexivity|].
  destruct (name c =? segment)%string eqn:E.
  - apply String.eqb_eq in E. exfalso. apply (H c); auto.
  - apply IH. intros c' Hc'. apply H. now right.
Qed.

Lemma navigate_reaches (virtualRoot current target : DirectoryNode)
      (navigationPath : list string) :
  reaches current navigationPath target ->
  navigate virtualRoot current navigationPath = target.
Proof.
  induction 1 as [|node segment rest before child after target
                   Hch Hname Hbefore _ IH]; simpl; [reflexivity|].
  now rewrite Hch, (find_first _ _ _ _ Hname Hbefore).
Qed.

Lemma navigate_mismatch (virtualRoot current deepest : DirectoryNode)
      (matched rest : list string) (segment : string) :
  reaches current matched deepest ->
  (forall c, In c (children deepest) -> name c <> segment) ->
  navigate virtualRoot current (matched ++ segment :: rest) = virtualRoot.
Proof.
  intros Hreach Hnone.
  induction Hreach as [|node seg rest' before child after target
                        Hch Hname Hbefore _ IH]; simpl.
  - now rewrite (find_no_match _ _ Hnone).
  - rewrite Hch, (find_first _ _ _ _ Hname Hbefore). now apply IH.
Qed.

(** C9.  When every segment of the navigation path names, in turn, a
    child of the node reached so far, [currentNode] is the node the path
    leads to; on the empty path it is the virtual root; and as soon as
    one segment names no child of the node reached so far, it is the
    virtual root itself, whatever was matched before and whatever
    follows. *)
Theorem currentNode_navigation (virtualRoot : DirectoryNode) :
  (forall navigationPath target,
      reaches virtualRoot navigationPath target ->
      currentNode virtualRoot navigationPath = target)
  /\ currentNode virtualRoot [] = virtualRoot
  /\ (forall matched segment rest deepest,
         reaches virtualRoot matched deepest ->
         (forall c, In c (children deepest) -> name c <> segment) ->
         currentNode virtualRoot (matched ++ segment :: rest) = virtualRoot).
Proof.
  split; [|split].
  - intros navigationPath target. apply navigate_reaches.
  - reflexivity.
  - intros matched segment rest deepest. apply navigate_mismatch.
Qed.

Lemma sampleTree_reaches_features :
  reaches sampleTree ["features"] featuresNode.
Proof.
  apply (reaches_child sampleTree "features" [] [] featuresNode []
                       featuresNode); simpl.
  - reflexivity.
  - reflexivity.
  - intros c [].
  - constructor.
Qed.

Lemma currentNode_navigation_witness :
  currentNode sampleTree ["features"] = featuresNode
  /\ currentNode sampleTree ["features"; "missing"; "features"] = sampleTree.
Proof.
  destruct (currentNode_navigation sampleTree) as [Hfound [_ Hlost]].
  split.
  - apply Hfound, sampleTree_reaches_features.
  - apply (Hlost ["features"] "missing" ["features"] featuresNode).
    + exact sampleTree_reaches_features.
    + intros c [].
Defined.

(** ** Record filtering *)

Lemma includes_unfold (s p : string) :
  Js.includes s p =
  String.prefix p s
  || match s with
     | EmptyString => false
     | String _ s' => Js.includes s' p
     end.
Proof. now destruct s. Qed.

Lemma prefix_append (p post : string) : String.prefix p (p ++ post) = true.
Proof.
  induction p as [|c p IH]; simpl.
  - now destruct post.
  - destruct (ascii_dec c c); [exact IH | contradiction].
Qed.

(** [includes] finds every occurrence. *)
Lemma includes_occurrence (pre p post : string) :
  Js.includes (pre ++ p ++ post) p = true.
Proof.
  induction pre as [|c pre IH].
  - simpl. rewrite includes_unfold, prefix_append. reflexivity.
  - rewrite includes_unfold. simpl. rewrite IH. apply orb_true_r.
Qed.

Lemma toLowerCase_append (a b : string) :
  Js.toLowerCase (a ++ b) = (Js.toLowerCase a ++ Js.toLowerCase b)%string.
Proof.
  induction a as [|c a IH]; simpl; [reflexivity|]. now rewrite IH.
Qed.

Lemma patterns_lower_case :
  Forall (fun p => Js.toLowerCase p = p) COMMON_PAGE_PATTERNS.
Proof.
  repeat constructor.
Qed.

Lemma isNoise_occurrence (pre p post : string) :
  In p COMMON_PAGE_PATTERNS -> isNoise (pre ++ p ++ post) = true.
Proof.
  intros Hp. unfold isNoise. apply existsb_exists. exists p.
  split; [exact Hp|].
  rewrite !toLowerCase_append.
  pose proof patterns_lower_case as Hlow. rewrite Forall_forall in Hlow.
  rewrite (Hlow p Hp). apply includes_occurrence.
Qed.

(** C10.  With [hideCommon] off and an empty search query the displayed
    records are the records of the node, unchanged and in order.
    [hideCommon] starts on, and while it is on no record whose path
    contains one of the common-page patterns is displayed, whatever the
    search query. *)
Theorem filteredRecords_identity_when_disabled (node : DirectoryNode) :
  filteredRecords node false "" = records node
  /\ initialHideCommon = true
  /\ (forall searchQuery record p pre post,
         In p COMMON_PAGE_PATTERNS ->
         path record = (pre ++ p ++ post)%string ->
         ~ In record (filteredRecords node true searchQuery)).
Proof.
  split; [|split].
  - unfold filteredRecords. simpl.
    induction (records node) as [|r l IH]; simpl; [reflexivity|].
    now rewrite IH.
  - reflexivity.
  - intros searchQuery record p pre post Hp Hpath Hin.
    unfold filteredRecords in Hin. apply filter_In in Hin.
    destruct Hin as [_ Hkeep].
    rewrite Hpath, (isNoise_occurrence pre p post Hp) in Hkeep.
    discriminate.
Qed.

Lemma filteredRecords_identity_when_disabled_witness :
  filteredRecords sampleTree false "" = records sampleTree
  /\ ~ In (page "/pricing" "pricing")
          (filteredRecords sampleTree initialHideCommon initialSearchQuery).
Proof.
  destruct (filteredRecords_identity_when_disabled sampleTree)
    as [Hid [_ Hdrop]].
  split; [exact Hid|].
  apply (Hdrop "" (page "/pricing" "pricing") "pricing" "/" "").
  - simpl. tauto.
  - reflexivity.
Defined.

(** * Further properties of the dashboard code *)

(** ** Regrouping keeps the records *)

Lemma update_records (groups : Groups) (k : string) (rec : IntentRecord)
      (arr : list IntentRecord) :
  Js.getOwn groups k = Some arr ->
  Permutation (flat_map snd (Js.update groups k (fun a => a ++ [rec])))
              (rec :: flat_map snd groups).
Proof.
  induction groups as [|[k0 v0] groups IH]; simpl; [discriminate|].
  destruct (k0 =? k)%string; simpl.
  - intros _. rewrite <- app_assoc. simpl.
    apply Permutation_sym, Permutation_middle.
  - intros H. eapply perm_trans; [apply Permutation_app_head, (IH H)|].
    apply Permutation_sym, Permutation_middle.
Qed.

Lemma fillGroups_records (keyFn : IntentRecord -> option string)
      (recs : list IntentRecord) : forall groups groups',
  fillGroups keyFn groups recs = Ok groups' ->
  Permutation (flat_map snd groups') (flat_map snd groups ++ recs).
Proof.
  induction recs as [|rec recs IH]; simpl; intros groups groups' H.
  - injection H as <-. now rewrite app_nil_r.
  - destruct (addRecord keyFn groups rec) as [g1|] eqn:E; [|discriminate].
    simpl in H. eapply perm_trans; [apply (IH _ _ H)|].
    eapply perm_trans; [|apply Permutation_middle].
    change (rec :: flat_map snd groups ++ recs)
      with ((rec :: flat_map snd groups) ++ recs).
    apply Permutation_app_tail.
    unfold addRecord in E.
    destruct (Js.getOwn groups (groupKey keyFn rec)) as [arr|] eqn:G.
    + injection E as <-. eapply update_records; eauto.
    + destruct (Js.inherited _); [discriminate|]. injection E as <-.
      rewrite flat_map_app. simpl.
      apply Permutation_sym, Permutation_cons_append.
Qed.

Lemma flat_map_sorted_groups (localeCompare : string -> string -> Z)
      (sortMode : SortMode) (groups : Groups) :
  Permutation
    (flat_map getAllRecords (map (groupNode localeCompare sortMode) groups))
    (flat_map snd groups).
Proof.
  induction groups as [|[k arr] groups IH]; simpl; [constructor|].
  apply Permutation_app; [apply sort_perm | exact IH].
Qed.

(** The tree [groupRecords] returns holds the input records, each as
    many times as it was given: flattening the tree again gives the
    input up to order. *)
Theorem groupRecords_keeps_records
        (localeCompare : string -> string -> Z) (recs : list IntentRecord)
        (keyFn : IntentRecord -> option string) (sortMode : SortMode)
        (tree : DirectoryNode) :
  groupRecords localeCompare recs keyFn sortMode = Ok tree ->
  Permutation (getAllRecords tree) recs.
Proof.
  intros H. destruct (groupRecords_Ok _ _ _ _ _ H) as [g [Hg Ht]].
  pose proof (groupRecords_children _ _ _ _ _ _ H Hg) as Hperm.
  rewrite getAllRecords_unfold.
  replace (records tree) with (@nil IntentRecord) by now subst tree.
  simpl.
  eapply perm_trans; [apply Permutation_flat_map, Hperm|].
  eapply perm_trans; [apply flat_map_sorted_groups|].
  exact (fillGroups_records keyFn recs [] g Hg).
Qed.

Lemma groupRecords_keeps_records_witness :
  exists tree,
    groupRecords collate
                 [page "/b" "x"; page "/a" "y"; page "/c" "x"]
                 byIntent SortName = Ok tree
    /\ Permutation (getAllRecords tree)
                   [page "/b" "x"; page "/a" "y"; page "/c" "x"].
Proof.
  eexists. split; [reflexivity|].
  apply (groupRecords_keeps_records collate
           [page "/b" "x"; page "/a" "y"; page "/c" "x"] byIntent SortName).
  reflexivity.
Defined.

(** ** The three views show the same records *)

Lemma countInvariant_renamed (tree : DirectoryNode) (newName : string) :
  countInvariant tree ->
  countInvariant {| name := newName; node_path := node_path tree;
                    count := count tree; children := children tree;
                    records := records tree |}.
Proof.
  intros Hinv node Hnode. simpl in Hnode. destruct Hnode as [<- | Hnode].
  - assert (Hroot : countBalanced tree).
    { apply Hinv. rewrite nodes_unfold. now left. }
    exact Hroot.
  - apply Hinv. rewrite nodes_unfold. now right.
Qed.

(** The counts of a tree returned by [groupRecords], as a lemma for the
    views. *)
Lemma groupRecords_balanced
      (localeCompare : string -> string -> Z) (recs : list IntentRecord)
      (keyFn : IntentRecord -> option string) (sortMode : SortMode)
      (tree : DirectoryNode) :
  groupRecords localeCompare recs keyFn sortMode = Ok tree ->
  countInvariant tree /\ count tree = Z.of_nat (List.length recs).
Proof.
  intros H. destruct (groupRecords_Ok _ _ _ _ _ H) as [g [Hg Ht]].
  pose proof (groupRecords_children _ _ _ _ _ _ H Hg) as Hperm.
  split; [|now subst tree].
  intros node Hnode. rewrite nodes_unfold in Hnode.
  destruct Hnode as [<- | Hnode].
  - unfold countBalanced. rewrite (sumCounts_perm _ _ Hperm).
    rewrite sumCounts_groupNode, (fillGroups_size _ _ _ _ Hg).
    subst tree. simpl. lia.
  - apply in_flat_map in Hnode. destruct Hnode as [child [Hchild Hnode]].
    apply (Permutation_in _ Hperm) in Hchild.
    apply in_map_iff in Hchild. destruct Hchild as [e [<- _]].
    rewrite nodes_groupNode in Hnode. destruct Hnode as [<- | []].
    apply countBalanced_groupNode.
Qed.

(** Whatever the view, the virtual root holds the records of the site's
    tree, up to order; so the number of new records is the same in every
    view.  When the site's tree satisfies the count invariant, so does
    the virtual root, with the same total. *)
Theorem virtualRoot_same_records
        (localeCompare : string -> string -> Z) (data : SitemapSummary)
        (activeSite : string) (viewMode : ViewMode) (sortMode : SortMode)
        (root : DirectoryNode) :
  virtualRoot localeCompare data activeSite viewMode sortMode = Ok root ->
  Permutation (getAllRecords root) (baseRecords data)
  /\ List.length (filter isNew (getAllRecords root)) = newUrlCount data
  /\ (countInvariant (directory_tree data) ->
      countInvariant root /\ count root = count (directory_tree data)).
Proof.
  intros H.
  assert (Hperm : Permutation (getAllRecords root) (baseRecords data)).
  { destruct viewMode; simpl in H.
    - injection H as <-. rewrite getAllRecords_unfold. simpl.
      unfold baseRecords. now rewrite (getAllRecords_unfold (directory_tree data)).
    - exact (groupRecords_keeps_records _ _ _ _ _ H).
    - exact (groupRecords_keeps_records _ _ _ _ _ H). }
  split; [exact Hperm|]. split.
  - unfold newUrlCount. apply Permutation_length.
    clear H. unfold baseRecords in Hperm.
    induction Hperm as [|x l l' _ IH|x y l|l l' l'' _ IH1 _ IH2]; simpl.
    + constructor.
    + destruct (isNew x); [now constructor | exact IH].
    + destruct (isNew x), (isNew y); try apply Permutation_refl.
      apply perm_swap.
    + eapply perm_trans; eauto.
  - intros Hinv.
    pose proof (getAllRecords_length _ Hinv) as Hlen.
    destruct viewMode; simpl in H.
    + injection H as <-. split; [now apply countInvariant_renamed|].
      reflexivity.
    + destruct (groupRecords_balanced
                  localeCompare _ _ _ _ H) as [Hi Hc].
      split; [exact Hi|]. now rewrite Hc.
    + destruct (groupRecords_balanced
                  localeCompare _ _ _ _ H) as [Hi Hc].
      split; [exact Hi|]. now rewrite Hc.
Qed.

Lemma virtualRoot_same_records_witness :
  exists root,
    virtualRoot collate sampleSite "example.com" Intent SortCount = Ok root
    /\ Permutation (getAllRecords root) (baseRecords sampleSite)
    /\ List.length (filter isNew (getAllRecords root)) = newUrlCount sampleSite
    /\ countInvariant root /\ count root = count (directory_tree sampleSite).
Proof.
  eexists. split; [reflexivity|].
  destruct (virtualRoot_same_records collate sampleSite "example.com"
              Intent SortCount _ eq_refl) as [Hperm [Hnew Hcount]].
  split; [exact Hperm|]. split; [exact Hnew|].
  apply Hcount. exact sampleTree_countInvariant.
Defined.

(** ** What the groups hold *)

(** No group is empty, every group holds records of the input whose key is
    the name of the group, its count is the number of its records, and
    there are groups exactly when there are records. *)
Theorem groupRecords_groups_nonempty
        (localeCompare : string -> string -> Z) (recs : list IntentRecord)
        (keyFn : IntentRecord -> option string) (sortMode : SortMode)
        (tree : DirectoryNode) :
  groupRecords localeCompare recs keyFn sortMode = Ok tree ->
  (forall child,
      In child (children tree) ->
      records child <> []
      /\ (1 <= count child)%Z
      /\ count child = Z.of_nat (List.length (records child))
      /\ forall r, In r (records child) <->
                   In r recs /\ groupKey keyFn r = name child)
  /\ (children tree = [] <-> recs = []).
Proof.
  intros H. split.
  - intros child Hchild.
    apply (groupRecords_child_iff _ _ _ _ _ H) in Hchild.
    destruct Hchild as [k [Hk ->]]. simpl.
    apply in_map_iff in Hk. destruct Hk as [r0 [Hr0 Hin0]].
    assert (Hin : In r0 (filter (hasKey keyFn k) recs)).
    { apply filter_In. split; [exact Hin0|].
      unfold hasKey. rewrite Hr0. apply String.eqb_refl. }
    assert (Hlen : (1 <= List.length (filter (hasKey keyFn k) recs))%nat).
    { destruct (filter (hasKey keyFn k) recs); [contradiction | simpl; lia]. }
    split; [|split; [|split]].
    + intros Hnil. apply (sort_In (compareRecords localeCompare sortMode)) in Hin.
      rewrite Hnil in Hin. contradiction.
    + lia.
    + now rewrite sort_length.
    + intros r. rewrite sort_In, filter_In. unfold hasKey.
      now rewrite String.eqb_eq.
  - pose proof (groupRecords_names _ _ _ _ _ H) as Hnames.
    split.
    + intros Hnil. rewrite Hnil in Hnames. simpl in Hnames.
      apply Permutation_nil in Hnames.
      destruct recs as [|r recs']; [reflexivity|]. exfalso.
      assert (Hin : In (groupKey keyFn r)
                       (firstOccurrences (map (groupKey keyFn) (r :: recs')))).
      { apply fold_noteKey_In. right. now left. }
      rewrite Hnames in Hin. contradiction.
    + intros ->. simpl in Hnames. apply Permutation_sym in Hnames.
      apply Permutation_nil in Hnames.
      now destruct (children tree).
Qed.

Lemma groupRecords_groups_nonempty_witness :
  exists tree,
    groupRecords collate [page "/b" "x"; page "/a" ""] byIntent SortName
    = Ok tree
    /\ Forall (fun child => (1 <= count child)%Z) (children tree)
    /\ children tree <> [].
Proof.
  eexists. split; [reflexivity|].
  destruct (groupRecords_groups_nonempty
              collate [page "/b" "x"; page "/a" ""] byIntent SortName
              _ eq_refl) as [Hgroups Hany].
  split.
  - apply Forall_forall. intros child Hchild.
    now destruct (Hgroups child Hchild) as [_ [Hone _]].
  - intros Hnil. apply Hany in Hnil. discriminate.
Defined.

(** The records of each group are sorted: by title, or URL when there
    is no title, and by descending date for the sort mode [date],
    according to the host's collation. *)
Theorem groupRecords_records_sorted
        (localeCompare : string -> string -> Z) (recs : list IntentRecord)
        (keyFn : IntentRecord -> option string) (sortMode : SortMode)
        (tree : DirectoryNode) :
  (forall a b, (0 < localeCompare a b)%Z -> (localeCompare b a <= 0)%Z) ->
  (forall a b c, (localeCompare a b <= 0)%Z -> (localeCompare b c <= 0)%Z ->
                 (localeCompare a c <= 0)%Z) ->
  groupRecords localeCompare recs keyFn sortMode = Ok tree ->
  forall child,
    In child (children tree) ->
    StronglySorted
      (fun a b =>
         match sortMode with
         | SortDate =>
             (localeCompare (Js.orElse (lastmod b) "")
                            (Js.orElse (lastmod a) "") <= 0)%Z
         | _ =>
             (localeCompare (Js.orElse (title a) (url a))
                            (Js.orElse (title b) (url b)) <= 0)%Z
         end)
      (records child).
Proof.
  intros Htotal Htrans H child Hchild.
  apply (groupRecords_child_iff _ _ _ _ _ H) in Hchild.
  destruct Hchild as [k [_ ->]]. simpl.
  apply (StronglySorted_ext_le (compareRecords localeCompare sortMode)).
  - intros a b Hab. destruct sortMode; exact Hab.
  - apply sort_sorted.
    + intros a b. destruct sortMode; simpl; apply Htotal.
    + intros a b c. destruct sortMode; simpl; intros Hab Hbc;
        eapply Htrans; eauto.
Qed.

Lemma groupRecords_records_sorted_witness :
  exists tree,
    groupRecords collate
                 [page "/b" "x"; page "/a" "x"; page "/c" "x"]
                 byIntent SortCount = Ok tree
    /\ map (fun child => map url (records child)) (children tree)
       = [["/a"; "/b"; "/c"]]
    /\ forall child,
         In child (children tree) ->
         StronglySorted
           (fun a b => (collate (Js.orElse (title a) (url a))
                                (Js.orElse (title b) (url b)) <= 0)%Z)
           (records child).
Proof.
  eexists. split; [reflexivity|]. split; [reflexivity|].
  exact (groupRecords_records_sorted collate
           [page "/b" "x"; page "/a" "x"; page "/c" "x"]
           byIntent SortCount _ collate_total collate_trans eq_refl).
Defined.

(** ** When [groupRecords] throws *)

(** [groupRecords] throws exactly when the key of some record names a
    property inherited from [Object.prototype]; nothing else makes it
    fail. *)
Theorem groupRecords_throws_iff
        (localeCompare : string -> string -> Z) (recs : list IntentRecord)
        (keyFn : IntentRecord -> option string) (sortMode : SortMode) :
  groupRecords localeCompare recs keyFn sortMode = TypeError <->
  exists r, In r recs /\ Js.inherited (groupKey keyFn r) = true.
Proof.
  split.
  - intros H.
    destruct (existsb (fun r => Js.inherited (groupKey keyFn r)) recs) eqn:E.
    + apply existsb_exists in E. exact E.
    + exfalso.
      destruct (groupRecords_returns localeCompare recs keyFn sortMode)
        as [tree Htree]; [|congruence].
      intros r Hr.
      destruct (Js.inherited (groupKey keyFn r)) eqn:Er; [|reflexivity].
      assert (Hex : existsb (fun r => Js.inherited (groupKey keyFn r)) recs
                    = true).
      { apply existsb_exists. now exists r. }
      congruence.
  - intros [r [Hr Hk]]. eapply groupRecords_throws; eauto.
Qed.

(** ** Navigation in a grouped view *)

Lemma find_by_name (l : list DirectoryNode) (child : DirectoryNode) :
  NoDup (map name l) -> In child l ->
  find (fun c => (name c =? name child)%string) l = Some child.
Proof.
  induction l as [|x l IH]; simpl; [tauto|].
  intros Hnd [-> | Hin].
  - now rewrite String.eqb_refl.
  - inversion Hnd as [|? ? Hnot Hnd']; subst.
    destruct (name x =? name child)%string eqn:E.
    + apply String.eqb_eq in E. exfalso. apply Hnot. rewrite E.
      now apply in_map.
    + now apply IH.
Qed.

Lemma find_absent_name (l : list DirectoryNode) (k : string) :
  ~ In k (map name l) ->
  find (fun c => (name c =? k)%string) l = None.
Proof.
  intros H. apply find_no_match. intros c Hc Hname. apply H.
  rewrite <- Hname. now apply in_map.
Qed.

Section GroupNavigation.
Variable localeCompare : string -> string -> Z.
Variable keyFn : IntentRecord -> option string.
Variable sortMode : SortMode.
Variable recs : list IntentRecord.
Variable tree : DirectoryNode.
Hypothesis returned :
  groupRecords localeCompare recs keyFn sortMode = Ok tree.

Lemma groupRecords_find (k : string) :
  In k (map (groupKey keyFn) recs) ->
  find (fun c => (name c =? k)%string) (children tree) =
  Some (groupNode localeCompare sortMode (k, filter (hasKey keyFn k) recs)).
Proof.
  intros Hk.
  destruct (groupRecords_flat _ _ _ _ _ returned) as [_ [_ [Hnd _]]].
  apply (find_by_name
           (children tree)
           (groupNode localeCompare sortMode
                      (k, filter (hasKey keyFn k) recs)) Hnd).
  apply (groupRecords_child_iff _ _ _ _ _ returned). now exists k.
Qed.

Lemma groupRecords_find_none (k : string) :
  ~ In k (map (groupKey keyFn) recs) ->
  find (fun c => (name c =? k)%string) (children tree) = None.
Proof.
  intros Hk. apply find_absent_name. intros Hin. apply Hk.
  destruct (groupRecords_flat _ _ _ _ _ returned) as [_ [_ [_ [Hkeys _]]]].
  apply Hkeys in Hin. destruct Hin as [r [Hr <-]]. now apply in_map.
Qed.

Lemma groupRecords_navigate_one (k : string) :
  In k (map (groupKey keyFn) recs) ->
  currentNode tree [k] =
  groupNode localeCompare sortMode (k, filter (hasKey keyFn k) recs).
Proof.
  intros Hk. unfold currentNode. simpl. now rewrite (groupRecords_find k Hk).
Qed.
End GroupNavigation.

(** In a grouped tree, the path made of the key of a record leads to the
    group that holds the record; a path of one segment that is no key,
    and every path of two segments or more, leads back to the root. *)
Theorem grouped_tree_navigation
        (localeCompare : string -> string -> Z) (recs : list IntentRecord)
        (keyFn : IntentRecord -> option string) (sortMode : SortMode)
        (tree : DirectoryNode) :
  groupRecords localeCompare recs keyFn sortMode = Ok tree ->
  (forall r,
      In r recs ->
      let group := currentNode tree [groupKey keyFn r] in
      name group = groupKey keyFn r
      /\ In r (records group)
      /\ count group = groupSize keyFn recs (groupKey keyFn r)
      /\ children group = [])
  /\ (forall k, ~ In k (map (groupKey keyFn) recs) ->
                currentNode tree [k] = tree)
  /\ (forall first second rest,
         currentNode tree (first :: second :: rest) = tree).
Proof.
  intros H. split; [|split].
  - intros r Hr. cbv zeta.
    rewrite (groupRecords_navigate_one _ _ _ _ _ H (groupKey keyFn r))
      by now apply in_map.
    simpl. split; [reflexivity|]. split; [|split; reflexivity].
    apply sort_In, filter_In. split; [exact Hr | apply String.eqb_refl].
  - intros k Hk. unfold currentNode. simpl.
    now rewrite (groupRecords_find_none _ _ _ _ _ H k Hk).
  - intros first second rest. unfold currentNode. simpl.
    destruct (find (fun c => (name c =? first)%string) (children tree))
      as [child|] eqn:E; [|reflexivity].
    apply find_some in E. destruct E as [Hin _].
    apply (groupRecords_child_iff _ _ _ _ _ H) in Hin.
    destruct Hin as [k [_ ->]]. reflexivity.
Qed.

Lemma grouped_tree_navigation_witness :
  exists tree,
    groupRecords collate [page "/b" "x"; page "/a" ""] byIntent SortName
    = Ok tree
    /\ name (currentNode tree ["Uncategorized"]) = "Uncategorized"
    /\ In (page "/a" "") (records (currentNode tree ["Uncategorized"]))
    /\ currentNode tree ["x"; "deeper"] = tree.
Proof.
  eexists. split; [reflexivity|].
  destruct (grouped_tree_navigation
              collate [page "/b" "x"; page "/a" ""] byIntent SortName
              _ eq_refl) as [Hgroup [_ Hdeep]].
  destruct (Hgroup (page "/a" "")) as [Hname [Hin _]]; [simpl; tauto|].
  split; [exact Hname|]. split; [exact Hin|].
  apply Hdeep.
Defined.

(** Switching the sort between name and count permutes the groups and
    changes none of them: the path of a group leads to the same node
    before and after. *)
Theorem sort_toggle_keeps_groups
        (localeCompare : string -> string -> Z) (recs : list IntentRecord)
        (keyFn : IntentRecord -> option string)
        (byName byCount : DirectoryNode) :
  groupRecords localeCompare recs keyFn SortName = Ok byName ->
  groupRecords localeCompare recs keyFn SortCount = Ok byCount ->
  Permutation (children byName) (children byCount)
  /\ forall k, In k (map (groupKey keyFn) recs) ->
               currentNode byName [k] = currentNode byCount [k].
Proof.
  intros Hn Hc. split.
  - eapply perm_trans;
      [apply (groupRecords_children_spec _ _ _ _ _ Hn)|].
    apply Permutation_sym.
    exact (groupRecords_children_spec _ _ _ _ _ Hc).
  - intros k Hk.
    rewrite (groupRecords_navigate_one _ _ _ _ _ Hn k Hk).
    rewrite (groupRecords_navigate_one _ _ _ _ _ Hc k Hk).
    reflexivity.
Qed.

Lemma sort_toggle_keeps_groups_witness :
  exists byName byCount,
    groupRecords collate [page "/1" "b"; page "/2" "a"; page "/3" "b"]
                 byIntent SortName = Ok byName
    /\ groupRecords collate [page "/1" "b"; page "/2" "a"; page "/3" "b"]
                    byIntent SortCount = Ok byCount
    /\ map name (children byName) = ["a"; "b"]
    /\ map name (children byCount) = ["b"; "a"]
    /\ currentNode byName ["b"] = currentNode byCount ["b"].
Proof.
  do 2 eexists. split; [reflexivity|]. split; [reflexivity|].
  split; [reflexivity|]. split; [reflexivity|].
  destruct (sort_toggle_keeps_groups
              collate [page "/1" "b"; page "/2" "a"; page "/3" "b"]
              byIntent _ _ eq_refl eq_refl) as [_ Hsame].
  apply Hsame. simpl. tauto.
Defined.

(** The sort mode [date] orders the groups as the sort mode [count]
    does: the same names with the same counts in the same order. *)
Theorem date_mode_orders_groups_by_count
        (localeCompare : string -> string -> Z) (recs : list IntentRecord)
        (keyFn : IntentRecord -> option string)
        (byDate byCount : DirectoryNode) :
  groupRecords localeCompare recs keyFn SortDate = Ok byDate ->
  groupRecords localeCompare recs keyFn SortCount = Ok byCount ->
  map (fun child => (name child, count child)) (children byDate)
  = map (fun child => (name child, count child)) (children byCount).
Proof.
  intros Hd Hc.
  rewrite (groupRecords_children_order _ _ _ _ _ Hd).
  rewrite (groupRecords_children_order _ _ _ _ _ Hc).
  set (f := fun child : DirectoryNode => (name child, count child)).
  set (cmp := fun p q : string * Z => (snd q - snd p)%Z).
  rewrite <- (sort_map f (compareGroups localeCompare SortDate) cmp)
    by reflexivity.
  rewrite <- (sort_map f (compareGroups localeCompare SortCount) cmp)
    by reflexivity.
  now rewrite !map_map.
Qed.

Lemma date_mode_orders_groups_by_count_witness :
  exists byDate byCount,
    groupRecords collate [page "/1" "b"; page "/2" "a"; page "/3" "a"]
                 byIntent SortDate = Ok byDate
    /\ groupRecords collate [page "/1" "b"; page "/2" "a"; page "/3" "a"]
                    byIntent SortCount = Ok byCount
    /\ map (fun child => (name child, count child)) (children byDate)
       = map (fun child => (name child, count child)) (children byCount).
Proof.
  do 2 eexists. split; [reflexivity|]. split; [reflexivity|].
  apply (date_mode_orders_groups_by_count
           collate [page "/1" "b"; page "/2" "a"; page "/3" "a"] byIntent);
    reflexivity.
Defined.

Lemma prepend_slash_injective (a b : string) :
  ("/" ++ a)%string = ("/" ++ b)%string -> a = b.
Proof. simpl. now intros [= ->]. Qed.

(** The groups have pairwise distinct paths, each the name of the group
    after a slash; the paths serve as the keys of the rendered list. *)
Theorem groupRecords_paths_distinct
        (localeCompare : string -> string -> Z) (recs : list IntentRecord)
        (keyFn : IntentRecord -> option string) (sortMode : SortMode)
        (tree : DirectoryNode) :
  groupRecords localeCompare recs keyFn sortMode = Ok tree ->
  NoDup (map node_path (children tree))
  /\ Forall (fun child => node_path child = ("/" ++ name child)%string)
            (children tree).
Proof.
  intros H.
  assert (Hpath : Forall (fun child =>
                            node_path child = ("/" ++ name child)%string)
                         (children tree)).
  { apply Forall_forall. intros child Hchild.
    apply (groupRecords_child_iff _ _ _ _ _ H) in Hchild.
    now destruct Hchild as [k [_ ->]]. }
  split; [|exact Hpath].
  destruct (groupRecords_flat _ _ _ _ _ H) as [_ [_ [Hnd _]]].
  revert Hnd Hpath. induction (children tree) as [|c l IH]; simpl.
  - constructor.
  - intros Hnd Hpath. inversion Hnd as [|? ? Hnot Hnd']; subst.
    inversion Hpath as [|? ? Hc Hl]; subst.
    constructor; [|now apply IH].
    intros Hin. apply Hnot. apply in_map_iff in Hin.
    destruct Hin as [c' [Heq Hc']]. apply in_map_iff. exists c'.
    split; [|exact Hc'].
    rewrite Forall_forall in Hl. rewrite (Hl c' Hc'), Hc in Heq.
    now apply prepend_slash_injective.
Qed.

Lemma groupRecords_paths_distinct_witness :
  exists tree,
    groupRecords collate [page "/1" "b"; page "/2" "a"; page "/3" "b"]
                 byIntent SortName = Ok tree
    /\ map node_path (children tree) = ["/a"; "/b"]
    /\ NoDup (map node_path (children tree)).
Proof.
  eexists. split; [reflexivity|]. split; [reflexivity|].
  apply (groupRecords_paths_distinct
           collate [page "/1" "b"; page "/2" "a"; page "/3" "b"]
           byIntent SortName).
  reflexivity.
Defined.

(** ** Substring search *)

Lemma prefix_split (p s : string) :
  String.prefix p s = true -> exists post, s = (p ++ post)%string.
Proof.
  revert s. induction p as [|a p IH]; intros s; simpl.
  - intros _. now exists s.
  - destruct s as [|b s]; simpl; [discriminate|].
    destruct (ascii_dec a b) as [Hab | _]; [subst b | discriminate].
    intros H. destruct (IH s H) as [post ->]. now exists post.
Qed.

Lemma includes_iff (s p : string) :
  Js.includes s p = true <-> occursIn p s.
Proof.
  split.
  - induction s as [|c s IH]; rewrite includes_unfold.
    + rewrite orb_false_r. intros H. apply prefix_split in H.
      destruct H as [post ->]. now exists ""%string, post.
    + intros H. apply orb_true_iff in H. destruct H as [H | H].
      * apply prefix_split in H. destruct H as [post ->].
        now exists ""%string, post.
      * destruct (IH H) as [pre [post ->]].
        now exists (String c pre), post.
  - intros [pre [post ->]]. apply includes_occurrence.
Qed.

Lemma toLowerCase_idempotent (s : string) :
  Js.toLowerCase (Js.toLowerCase s) = Js.toLowerCase s.
Proof.
  induction s as [|c s IH]; simpl; [reflexivity|]. rewrite IH. f_equal.
  unfold Js.lowerChar.
  destruct ((65 <=? nat_of_ascii c)%nat && (nat_of_ascii c <=? 90)%nat) eqn:E.
  - apply andb_true_iff in E. destruct E as [E1 E2].
    apply Nat.leb_le in E1, E2.
    rewrite nat_ascii_embedding by lia.
    replace ((65 <=? nat_of_ascii c + 32)%nat
             && (nat_of_ascii c + 32 <=? 90)%nat) with false; [reflexivity|].
    symmetry. apply andb_false_iff. right. apply Nat.leb_gt. lia.
  - now rewrite E.
Qed.

(** A name is a common page exactly when, put in lower case, it contains
    one of the patterns; so the test does not depend on the case of the
    name, and it is a test on substrings, not on whole segments. *)
Theorem isNoise_iff (name : string) :
  (isNoise name = true <->
   exists p, In p COMMON_PAGE_PATTERNS /\ occursIn p (Js.toLowerCase name))
  /\ isNoise (Js.toLowerCase name) = isNoise name.
Proof.
  split.
  - unfold isNoise. rewrite existsb_exists. split.
    + intros [p [Hp Hinc]]. exists p. split; [exact Hp|].
      now apply includes_iff.
    + intros [p [Hp Hocc]]. exists p. split; [exact Hp|].
      now apply includes_iff.
  - unfold isNoise. now rewrite toLowerCase_idempotent.
Qed.

(** ** The displayed records *)

Lemma truthy_iff (s : string) : Js.truthy s = true <-> s <> ""%string.
Proof.
  unfold Js.truthy. rewrite negb_true_iff. apply String.eqb_neq.
Qed.


(** ** Sub-directories *)

Lemma visibleDirs_In (node child : DirectoryNode) (hideCommon : bool) :
  In child (visibleDirs node hideCommon) <->
  In child (children node)
  /\ (hideCommon = true -> isNoise (name child) = false).
Proof.
  unfold visibleDirs. destruct hideCommon.
  - rewrite filter_In, negb_true_iff. tauto.
  - split; [intros H; split; [exact H | discriminate] | tauto].
Qed.

Lemma filter_split_by {A : Type} (p : A -> bool) (l : list A) :
  Permutation (filter (fun x => negb (p x)) l ++ filter p l) l.
Proof.
  induction l as [|x l IH]; simpl; [constructor|].
  destruct (p x); simpl.
  - eapply perm_trans; [apply Permutation_sym, Permutation_middle|].
    now constructor.
  - now constructor.
Qed.

(** The two lists of sub-directories split the children of the node:
    each child that is not hidden as a common page is in exactly one of
    them, the language list when its name is a language code in any
    letter case, the standard list otherwise; with nothing hidden, the
    two lists together are the children. *)
Theorem subdirectories_partition
        (localeCompare : string -> string -> Z)
        (node : DirectoryNode) (hideCommon : bool) :
  Permutation (standardDirs localeCompare node hideCommon
               ++ languageDirs localeCompare node hideCommon)
              (visibleDirs node hideCommon)
  /\ (forall child,
         In child (standardDirs localeCompare node hideCommon) <->
         In child (children node)
         /\ (hideCommon = true -> isNoise (name child) = false)
         /\ isLanguage (name child) = false)
  /\ (forall child,
         In child (languageDirs localeCompare node hideCommon) <->
         In child (children node)
         /\ (hideCommon = true -> isNoise (name child) = false)
         /\ isLanguage (name child) = true)
  /\ Permutation (standardDirs localeCompare node false
                  ++ languageDirs localeCompare node false)
                 (children node).
Proof.
  assert (Hsplit : forall h,
             Permutation (standardDirs localeCompare node h
                          ++ languageDirs localeCompare node h)
                         (visibleDirs node h)).
  { intros h. unfold standardDirs, languageDirs.
    eapply perm_trans; [|apply (filter_split_by
                                  (fun d => isLanguage (name d)))].
    apply Permutation_app; apply sort_perm. }
  split; [apply Hsplit|]. split; [|split].
  - intros child. unfold standardDirs.
    rewrite sort_In, filter_In, visibleDirs_In, negb_true_iff. tauto.
  - intros child. unfold languageDirs.
    rewrite sort_In, filter_In, visibleDirs_In. tauto.
  - exact (Hsplit false).
Qed.

(** Both lists are sorted by name, according to the host's collation. *)
Theorem subdirectories_sorted
        (localeCompare : string -> string -> Z)
        (node : DirectoryNode) (hideCommon : bool) :
  (forall a b, (0 < localeCompare a b)%Z -> (localeCompare b a <= 0)%Z) ->
  (forall a b c, (localeCompare a b <= 0)%Z -> (localeCompare b c <= 0)%Z ->
                 (localeCompare a c <= 0)%Z) ->
  StronglySorted (fun a b => (localeCompare (name a) (name b) <= 0)%Z)
                 (standardDirs localeCompare node hideCommon)
  /\ StronglySorted (fun a b => (localeCompare (name a) (name b) <= 0)%Z)
                    (languageDirs localeCompare node hideCommon).
Proof.
  intros Htotal Htrans.
  split; apply (sort_sorted (fun a b => localeCompare (name a) (name b)));
    try (intros a b; apply Htotal); intros a b c; apply Htrans.
Qed.

Lemma subdirectories_sorted_witness :
  map name (standardDirs collate siteRoot true) = ["blog"; "tools"]
  /\ map name (languageDirs collate siteRoot true) = ["DE"; "fr"]
  /\ StronglySorted (fun a b => (collate (name a) (name b) <= 0)%Z)
                    (standardDirs collate siteRoot true)
  /\ StronglySorted (fun a b => (collate (name a) (name b) <= 0)%Z)
                    (languageDirs collate siteRoot true).
Proof.
  split; [reflexivity|]. split; [reflexivity|].
  exact (subdirectories_sorted collate siteRoot true
                               collate_total collate_trans).
Defined.

Lemma getOwn_of_key {V : Type} (o : Js.Dict V) (k : string) :
  In k (map fst o) -> exists v, Js.getOwn o k = Some v.
Proof.
  intros H. destruct (Js.getOwn o k) as [v|] eqn:E; [now exists v|].
  apply getOwn_None in E. contradiction.
Qed.

Lemma own_key_read {V : Type} (o : Js.Dict V) (k : string) :
  arrayIncludes (objectKeys o) k = true ->
  exists v, readProperty o k = OwnValue v.
Proof.
  intros H. apply existsb_eqb_In in H.
  apply (Permutation_in _ (Permutation_map fst (entries_perm o))) in H.
  destruct (getOwn_of_key _ _ H) as [v Hv].
  exists v. unfold readProperty. now rewrite Hv.
Qed.

Lemma isLanguage_unfold (name : string) :
  isLanguage name =
  arrayIncludes (objectKeys LANGUAGE_MAP) (Js.toLowerCase name).
Proof. unfold isLanguage. reflexivity. Qed.

Lemma languageLabel_unfold (name : string) :
  languageLabel name = readProperty LANGUAGE_MAP (Js.toLowerCase name).
Proof. unfold languageLabel. reflexivity. Qed.

(** Every card of the language list has a label: the name of a language
    directory, in lower case, is an own key of [LANGUAGE_MAP]. *)
Theorem language_cards_have_labels
        (localeCompare : string -> string -> Z)
        (node : DirectoryNode) (hideCommon : bool) (child : DirectoryNode) :
  In child (languageDirs localeCompare node hideCommon) ->
  exists label, languageLabel (name child) = OwnValue label.
Proof.
  intros H. apply sort_In, filter_In in H. destruct H as [_ Hlang].
  rewrite isLanguage_unfold in Hlang. rewrite languageLabel_unfold.
  now apply own_key_read.
Qed.

Lemma language_cards_have_labels_witness :
  exists label,
    languageLabel "DE" = OwnValue label
    /\ languageLabel "de" = OwnValue label.
Proof.
  assert (Hin : In (emptyDir "DE") (languageDirs collate siteRoot true)).
  { vm_compute. tauto. }
  destruct (language_cards_have_labels collate siteRoot true _ Hin)
    as [label Hlabel].
  exists label. split; [exact Hlabel|]. exact Hlabel.
Defined.

(** ** Badges *)

Lemma badgeStyle_cases (label : string) :
  badgeStyle label =
  if Js.includes label "navigational"
  then "text-purple-400 bg-purple-400/10 border-purple-400/20"
  else if Js.includes label "informational"
       then "text-blue-400 bg-blue-400/10 border-blue-400/20"
       else if Js.includes label "commercial"
            then "text-emerald-400 bg-emerald-400/10 border-emerald-400/20"
            else defaultBadgeStyle.
Proof.
  unfold badgeStyle.
  replace (Js.entries badgeColors) with badgeColors by reflexivity.
  unfold badgeColors. cbn [fold_left fst snd].
  destruct (Js.includes label "navigational"),
           (Js.includes label "informational"),
           (Js.includes label "commercial"); reflexivity.
Qed.

(** No badge is shown for an empty label or the label [unknown], in
    exactly that spelling; any other label is shown as it is.  When
    several of the three keywords occur in the label the style is the
    one of the last that occurs, in the order commercial, informational,
    navigational; when none occurs it is the default style. *)
Theorem Badge_rendering (label : string) :
  (Badge label = None <-> label = ""%string \/ label = "unknown"%string)
  /\ (label <> ""%string -> label <> "unknown"%string ->
      exists style,
        Badge label = Some (style, label)
        /\ (occursIn "navigational" label ->
            style = "text-purple-400 bg-purple-400/10 border-purple-400/20"%string)
        /\ (~ occursIn "navigational" label ->
            occursIn "informational" label ->
            style = "text-blue-400 bg-blue-400/10 border-blue-400/20"%string)
        /\ (~ occursIn "navigational" label ->
            ~ occursIn "informational" label ->
            occursIn "commercial" label ->
            style = "text-emerald-400 bg-emerald-400/10 border-emerald-400/20"%string)
        /\ (~ occursIn "navigational" label ->
            ~ occursIn "informational" label ->
            ~ occursIn "commercial" label ->
            style = defaultBadgeStyle)).
Proof.
  assert (Hshown : forall l, l <> ""%string -> l <> "unknown"%string ->
                             Badge l = Some (badgeStyle l, l)).
  { intros l H1 H2. unfold Badge.
    apply truthy_iff in H1. apply String.eqb_neq in H2.
    now rewrite H1, H2. }
  split.
  - split.
    + intros H.
      destruct (string_dec label "") as [-> | H1]; [now left|].
      destruct (string_dec label "unknown") as [-> | H2]; [now right|].
      rewrite (Hshown label H1 H2) in H. discriminate.
    + intros [-> | ->]; reflexivity.
  - intros H1 H2. exists (badgeStyle label).
    split; [now apply Hshown|].
    rewrite badgeStyle_cases. rewrite <- !includes_iff.
    destruct (Js.includes label "navigational"),
             (Js.includes label "informational"),
             (Js.includes label "commercial");
      repeat split; intros; try reflexivity; try congruence;
        exfalso; auto.
Qed.

Lemma Badge_rendering_witness :
  exists style,
    Badge "commercial-navigational" = Some (style, "commercial-navigational")
    /\ style = "text-purple-400 bg-purple-400/10 border-purple-400/20"%string.
Proof.
  destruct (proj2 (Badge_rendering "commercial-navigational"))
    as [style [Hbadge [Hnav _]]]; try discriminate.
  exists style. split; [exact Hbadge|].
  apply Hnav. now exists "commercial-"%string, ""%string.
Defined.

(** ** Record rows *)

Lemma stripTrailingSlash_append (s : string) :
  stripTrailingSlash (s ++ "/") = s.
Proof.
  induction s as [|c s IH]; [reflexivity|].
  change (String c s ++ "/")%string with (String c (s ++ "/")).
  cbn [stripTrailingSlash]. rewrite IH.
  destruct (s ++ "/")%string eqn:E; [|reflexivity].
  destruct s; discriminate.
Qed.

Lemma stripTrailingSlash_none (s : string) :
  (forall t, s <> (t ++ "/")%string) -> stripTrailingSlash s = s.
Proof.
  induction s as [|c s IH]; intros H; [reflexivity|].
  destruct s as [|d s].
  - cbn [stripTrailingSlash]. destruct (c =? "/")%char eqn:E; [|reflexivity].
    apply Ascii.eqb_eq in E. subst c. exfalso. now apply (H ""%string).
  - change (stripTrailingSlash (String c (String d s)))
      with (String c (stripTrailingSlash (String d s))).
    rewrite IH; [reflexivity|].
    intros t Ht. apply (H (String c t)). simpl. now rewrite Ht.
Qed.

(** The URL bubble shows the URL without its scheme [http://] or
    [https://] and with a final slash: a URL that ends with a slash is
    shown as it is after the scheme, a URL that does not is shown with
    one more slash; so URLs that differ only by the scheme, or by one
    final slash, are shown alike. *)
Theorem urlBubbleText_normalises
        (record : IntentRecord) (rest : string) :
  (url record = ("https://" ++ rest ++ "/")%string
   \/ url record = ("http://" ++ rest ++ "/")%string ->
   urlBubbleText record = (rest ++ "/")%string)
  /\ ((forall t, rest <> (t ++ "/")%string) ->
      url record = ("https://" ++ rest)%string
      \/ url record = ("http://" ++ rest)%string ->
      urlBubbleText record = (rest ++ "/")%string).
Proof.
  assert (Hs : forall r, stripScheme ("https://" ++ r) = r) by reflexivity.
  assert (Hp : forall r, stripScheme ("http://" ++ r) = r) by reflexivity.
  unfold urlBubbleText, displayUrl. split.
  - intros [-> | ->]; rewrite ?Hs, ?Hp;
      now rewrite stripTrailingSlash_append.
  - intros Hrest [-> | ->]; rewrite ?Hs, ?Hp;
      now rewrite (stripTrailingSlash_none rest Hrest).
Qed.

Lemma urlBubbleText_normalises_witness :
  urlBubbleText (page "https://krea.ai/tools/" "unknown")
  = "krea.ai/tools/"%string
  /\ urlBubbleText (page "http://krea.ai/tools" "unknown")
     = "krea.ai/tools/"%string.
Proof.
  split.
  - apply (proj1 (urlBubbleText_normalises
                    (page "https://krea.ai/tools/" "unknown")
                    "krea.ai/tools")).
    left. reflexivity.
  - apply (proj2 (urlBubbleText_normalises
                    (page "http://krea.ai/tools" "unknown")
                    "krea.ai/tools")).
    + intros t Ht.
      do 13 (destruct t as [|? t]; [discriminate|]; injection Ht as _ Ht).
      destruct t; discriminate.
    + right. reflexivity.
Defined.

Lemma prefix_T (c : ascii) (s : string) :
  String.prefix "T" (String c s) = (c =? "T")%char.
Proof.
  cbn [String.prefix]. destruct (ascii_dec "T" c) as [<- | Hne].
  - now destruct s.
  - symmetry. apply Ascii.eqb_neq. congruence.
Qed.

Lemma beforeT_split (date time : string) :
  Js.includes date "T" = false ->
  beforeT (date ++ "T" ++ time) = date.
Proof.
  induction date as [|c date IH]; [reflexivity|].
  rewrite includes_unfold. intros H. apply orb_false_iff in H.
  destruct H as [Hc Hrest]. rewrite prefix_T in Hc.
  change (String c date ++ "T" ++ time)%string
    with (String c (date ++ "T" ++ time)).
  cbn [beforeT]. rewrite Hc. now rewrite (IH Hrest).
Qed.

Lemma beforeT_no_T (s : string) : Js.includes (beforeT s) "T" = false.
Proof.
  induction s as [|c s IH]; [reflexivity|].
  cbn [beforeT]. destruct (c =? "T")%char eqn:E; [reflexivity|].
  now rewrite includes_unfold, IH, prefix_T, E.
Qed.

(** The displayed date is the part of [lastmod] before its first [T]:
    the date of a timestamp, the whole value when it holds no [T], and
    nothing when [lastmod] is missing.  It never holds a [T]. *)
Theorem lastMod_is_date_part (record : IntentRecord) :
  (forall date time,
      Js.includes date "T" = false ->
      lastmod record = Some (date ++ "T" ++ time)%string ->
      lastMod record = date)
  /\ (forall value,
         Js.includes value "T" = false ->
         lastmod record = Some value ->
         lastMod record = value)
  /\ (lastmod record = None -> lastMod record = ""%string)
  /\ Js.includes (lastMod record) "T" = false.
Proof.
  unfold lastMod. split; [|split; [|split]].
  - intros date time H ->.
    destruct (Js.truthy (date ++ "T" ++ time)%string) eqn:E.
    + now apply beforeT_split.
    + destruct date; discriminate.
  - intros value H ->.
    destruct (Js.truthy value) eqn:E.
    + clear E. induction value as [|c value IH]; [reflexivity|].
      rewrite includes_unfold in H. apply orb_false_iff in H.
      destruct H as [Hc Hrest]. rewrite prefix_T in Hc.
      cbn [beforeT]. rewrite Hc. now rewrite (IH Hrest).
    + unfold Js.truthy in E. apply negb_false_iff, String.eqb_eq in E.
      now subst.
  - now intros ->.
  - destruct (lastmod record) as [s|]; [|reflexivity].
    destruct (Js.truthy s); [apply beforeT_no_T | reflexivity].
Qed.

Lemma lastMod_is_date_part_witness :
  lastMod
    {| url := "/"; path := "/"; depth := None; slug_tokens := None;
       action := "unknown"; object := "unknown"; scene := None;
       intent_category := "unknown"; notes := None;
       lastmod := Some "2024-05-01T10:30:00Z";
       title := None; is_new := None |}
  = "2024-05-01"%string.
Proof.
  apply (proj1 (lastMod_is_date_part _) "2024-05-01" "10:30:00Z");
    reflexivity.
Defined.

(** ** Paths and breadcrumbs *)

Lemma reaches_app (a b c : DirectoryNode) (p1 p2 : list string) :
  reaches a p1 b -> reaches b p2 c -> reaches a (p1 ++ p2) c.
Proof.
  induction 1 as [|node segment rest before child after target
                   Hch Hname Hbefore _ IH]; simpl; intros H2.
  - exact H2.
  - eapply reaches_child; eauto.
Qed.

Lemma reaches_split (root target : DirectoryNode) (path : list string) :
  reaches root path target ->
  forall i, exists ancestor,
      reaches root (firstn i path) ancestor
      /\ reaches ancestor (skipn i path) target.
Proof.
  induction 1 as [|node segment rest before child after target
                   Hch Hname Hbefore Hrest IH]; intros i.
  - exists node. rewrite firstn_nil, skipn_nil. split; constructor.
  - destruct i as [|i]; simpl.
    + exists node. split; [constructor|]. eapply reaches_child; eauto.
    + destruct (IH i) as [ancestor [H1 H2]]. exists ancestor.
      split; [|exact H2]. eapply reaches_child; eauto.
Qed.

Lemma first_occurrence (l : list DirectoryNode) (k : string) :
  In k (map name l) ->
  exists before child after,
    l = before ++ child :: after
    /\ name child = k
    /\ forall c, In c before -> name c <> k.
Proof.
  induction l as [|x l IH]; simpl; [contradiction|].
  intros H. destruct (string_dec (name x) k) as [Hx | Hx].
  - exists [], x, l. split; [reflexivity|]. split; [exact Hx|].
    intros c [].
  - destruct H as [H | H]; [contradiction|].
    destruct (IH H) as [before [child [after [-> [Hname Hbefore]]]]].
    exists (x :: before), child, after.
    split; [reflexivity|]. split; [exact Hname|].
    intros c [<- | Hc]; [exact Hx | now apply Hbefore].
Qed.

Lemma reaches_one (node : DirectoryNode) (k : string) :
  In k (map name (children node)) ->
  exists child,
    reaches node [k] child /\ In child (children node) /\ name child = k.
Proof.
  intros H. destruct (first_occurrence _ _ H)
    as [before [child [after [Hch [Hname Hbefore]]]]].
  exists child. split; [|split; [|exact Hname]].
  - eapply reaches_child; eauto. constructor.
  - rewrite Hch. apply in_or_app. right. now left.
Qed.

(** Opening a sub-directory of the displayed node appends its name to
    the path, and the node then displayed is a child of the former one
    with that name: the first so named, hence the directory that was
    opened when the names of the children are distinct. *)
Theorem onNavigate_opens_child
        (root shown child : DirectoryNode) (path : list string) :
  reaches root path shown ->
  In child (children shown) ->
  let opened := currentNode root (path ++ [name child]) in
  reaches root (path ++ [name child]) opened
  /\ In opened (children shown)
  /\ name opened = name child
  /\ (NoDup (map name (children shown)) -> opened = child).
Proof.
  intros Hpath Hchild. cbv zeta.
  destruct (reaches_one shown (name child)) as [c [Hc [Hin Hname]]];
    [now apply in_map|].
  pose proof (reaches_app _ _ _ _ _ Hpath Hc) as Hfull.
  unfold currentNode. rewrite (navigate_reaches _ _ _ _ Hfull).
  split; [exact Hfull|]. split; [exact Hin|]. split; [exact Hname|].
  intros Hnd.
  pose proof (find_by_name _ _ Hnd Hin) as H1.
  pose proof (find_by_name _ _ Hnd Hchild) as H2.
  rewrite Hname in H1. congruence.
Qed.

Lemma onNavigate_opens_child_witness :
  currentNode sampleTree ([] ++ [name featuresNode]) = featuresNode.
Proof.
  destruct (onNavigate_opens_child sampleTree sampleTree featuresNode [])
    as [_ [_ [_ Hsame]]].
  - constructor.
  - simpl. tauto.
  - apply Hsame. simpl. repeat constructor. simpl. tauto.
Defined.

(** Each breadcrumb of a path that leads to a node leads to a node on
    the way: the node displayed after the click is an ancestor from
    which the rest of the path leads to the node displayed before. *)
Theorem breadcrumb_leads_to_ancestor
        (root shown : DirectoryNode) (path : list string) (index : nat) :
  reaches root path shown ->
  let ancestor := currentNode root (firstn (index + 1) path) in
  reaches root (firstn (index + 1) path) ancestor
  /\ reaches ancestor (skipn (index + 1) path) shown.
Proof.
  intros H. cbv zeta.
  destruct (reaches_split _ _ _ H (index + 1)) as [ancestor [H1 H2]].
  unfold currentNode. rewrite (navigate_reaches _ _ _ _ H1). now split.
Qed.

Lemma breadcrumb_leads_to_ancestor_witness :
  reaches sampleTree (firstn (0 + 1) ["features"])
          (currentNode sampleTree (firstn (0 + 1) ["features"]))
  /\ reaches (currentNode sampleTree (firstn (0 + 1) ["features"]))
             (skipn (0 + 1) ["features"]) featuresNode.
Proof.
  exact (breadcrumb_leads_to_ancestor sampleTree featuresNode ["features"] 0
                                      sampleTree_reaches_features).
Defined.

(** ** The dashboard as a state machine *)

(** The sort button only ever alternates between name and count: from
    the initial state the sort mode [date] is never selected, whatever
    the user does. *)
Theorem sort_mode_never_date
        (localeCompare : string -> string -> Z)
        (SITES : string -> SitemapSummary) (s : Dashboard.State) :
  Dashboard.reachable localeCompare SITES s ->
  Dashboard.sortMode s = SortName \/ Dashboard.sortMode s = SortCount.
Proof.
  induction 1 as [|s s' _ IH Hstep]; [now left|].
  destruct Hstep; simpl; try exact IH.
  destruct (Dashboard.sortMode s); tauto.
Qed.

Lemma sort_mode_never_date_witness :
  Dashboard.sortMode
    (Dashboard.toggleSort
       (Dashboard.handleViewSwitch Intent Dashboard.initial)) = SortName
  \/ Dashboard.sortMode
       (Dashboard.toggleSort
          (Dashboard.handleViewSwitch Intent Dashboard.initial)) = SortCount.
Proof.
  apply (sort_mode_never_date collate (fun _ => sampleSite)).
  eapply Dashboard.reachable_step; [|apply Dashboard.step_sort].
  eapply Dashboard.reachable_step; [|apply Dashboard.step_view].
  apply Dashboard.reachable_initial.
Defined.

Lemma groupRecords_other_mode
      (localeCompare : string -> string -> Z) (recs : list IntentRecord)
      (keyFn : IntentRecord -> option string) (mode mode' : SortMode)
      (tree : DirectoryNode) :
  groupRecords localeCompare recs keyFn mode = Ok tree ->
  exists tree', groupRecords localeCompare recs keyFn mode' = Ok tree'.
Proof.
  intros H. destruct (groupRecords_Ok _ _ _ _ _ H) as [g [Hg _]].
  unfold groupRecords. rewrite Hg. simpl. eauto.
Qed.

Lemma reaches_leaf (node target : DirectoryNode) (path : list string) :
  children node = [] -> reaches node path target -> path = [].
Proof.
  intros Hleaf H. destruct H as [|? ? ? before child after ? Hch]; [reflexivity|].
  rewrite Hleaf in Hch. destruct before; discriminate.
Qed.

(** Paths in a flat tree have one segment at most, and a path that leads
    somewhere in one grouping of the records leads somewhere in any
    other grouping of the same records by the same key. *)
Lemma grouped_path_transfers
      (localeCompare : string -> string -> Z) (recs : list IntentRecord)
      (keyFn : IntentRecord -> option string) (mode mode' : SortMode)
      (tree tree' shown : DirectoryNode) (path : list string) :
  groupRecords localeCompare recs keyFn mode = Ok tree ->
  groupRecords localeCompare recs keyFn mode' = Ok tree' ->
  reaches tree path shown ->
  (List.length path <= 1)%nat /\ exists shown', reaches tree' path shown'.
Proof.
  intros H H' Hreach.
  destruct (groupRecords_flat _ _ _ _ _ H) as [_ [_ [_ [Hkeys Hflat]]]].
  destruct (groupRecords_flat _ _ _ _ _ H') as [_ [_ [_ [Hkeys' _]]]].
  destruct Hreach as [|node segment rest before child after target
                       Hch Hname Hbefore Hrest].
  - split; [simpl; lia|]. exists tree'. constructor.
  - assert (Hin : In child (children node)).
    { rewrite Hch. apply in_or_app. right. now left. }
    rewrite Forall_forall in Hflat.
    pose proof (reaches_leaf _ _ _ (Hflat child Hin) Hrest) as ->.
    split; [simpl; lia|].
    assert (Hk : In segment (map name (children tree'))).
    { apply Hkeys'. apply Hkeys. rewrite <- Hname. now apply in_map. }
    destruct (reaches_one tree' segment Hk) as [c [Hc _]]. now exists c.
Qed.

Lemma languageDirs_children
      (localeCompare : string -> string -> Z)
      (node child : DirectoryNode) (hideCommon : bool) :
  In child (languageDirs localeCompare node hideCommon) ->
  In child (children node).
Proof.
  unfold languageDirs. rewrite sort_In, filter_In, visibleDirs_In. tauto.
Qed.

Lemma reachable_path_resolves
      (localeCompare : string -> string -> Z)
      (SITES : string -> SitemapSummary) (s : Dashboard.State) :
  Dashboard.reachable localeCompare SITES s ->
  forall root,
    Dashboard.root localeCompare SITES s = Ok root ->
    exists shown, reaches root (Dashboard.navigationPath s) shown.
Proof.
  induction 1 as [|s s' _ IH Hstep]; intros root Hroot.
  - exists root. constructor.
  - destruct Hstep as [mode s | site s | s | s | index s Hindex
                       | hideCommon shown0 child s Hnode Hchild].
    + exists root. constructor.
    + exists root. constructor.
    + unfold Dashboard.root in *. simpl in *.
      destruct (Dashboard.viewMode s) eqn:Hview.
      * simpl in *. exact (IH root Hroot).
      * simpl in *.
        destruct (groupRecords_other_mode _ _ _ _ (Dashboard.sortMode s)
                                          _ Hroot) as [old Hold].
        destruct (IH old Hold) as [shown Hshown].
        exact (proj2 (grouped_path_transfers _ _ _ _ _ _ _ _ _
                                             Hold Hroot Hshown)).
      * simpl in *.
        destruct (groupRecords_other_mode _ _ _ _ (Dashboard.sortMode s)
                                          _ Hroot) as [old Hold].
        destruct (IH old Hold) as [shown Hshown].
        exact (proj2 (grouped_path_transfers _ _ _ _ _ _ _ _ _
                                             Hold Hroot Hshown)).
    + exists root. constructor.
    + destruct (IH root Hroot) as [shown Hshown].
      destruct (reaches_split _ _ _ Hshown (index + 1)) as [a [Ha _]].
      now exists a.
    + change (Dashboard.root localeCompare SITES s = Ok root) in Hroot.
      destruct (IH root Hroot) as [shown Hshown].
      unfold Dashboard.node in Hnode. rewrite Hroot in Hnode. simpl in Hnode.
      injection Hnode as <-.
      unfold currentNode in Hchild.
      rewrite (navigate_reaches _ _ _ _ Hshown) in Hchild.
      apply languageDirs_children in Hchild.
      destruct (reaches_one shown (name child)) as [c [Hc _]];
        [now apply in_map|].
      exists c. simpl. eapply reaches_app; eauto.
Qed.

(** Whatever the user does, the navigation path never dangles: whenever
    the virtual root of the current state is built, the path leads from
    it to a node, and that node is the one displayed.  In the Intent and
    Media views the path has one segment at most. *)
Theorem navigation_path_always_resolves
        (localeCompare : string -> string -> Z)
        (SITES : string -> SitemapSummary) (s : Dashboard.State)
        (root : DirectoryNode) :
  Dashboard.reachable localeCompare SITES s ->
  Dashboard.root localeCompare SITES s = Ok root ->
  (exists shown,
      reaches root (Dashboard.navigationPath s) shown
      /\ Dashboard.node localeCompare SITES s = Ok shown)
  /\ (Dashboard.viewMode s <> Structure ->
      (List.length (Dashboard.navigationPath s) <= 1)%nat).
Proof.
  intros Hreach Hroot.
  destruct (reachable_path_resolves _ _ _ Hreach root Hroot)
    as [shown Hshown].
  split.
  - exists shown. split; [exact Hshown|].
    unfold Dashboard.node. rewrite Hroot. simpl.
    unfold currentNode. now rewrite (navigate_reaches _ _ _ _ Hshown).
  - intros Hview. unfold Dashboard.root in Hroot.
    destruct (Dashboard.viewMode s); [contradiction | |]; simpl in Hroot;
      exact (proj1 (grouped_path_transfers _ _ _ _ _ _ _ _ _
                                           Hroot Hroot Hshown)).
Qed.

(** The state after opening the directory [fr] of [languageSite]. *)
Lemma reachable_fr :
  Dashboard.reachable collate (fun _ => languageSite)
                      (Dashboard.onNavigate "fr" Dashboard.initial).
Proof.
  apply (Dashboard.reachable_step _ _ Dashboard.initial);
    [apply Dashboard.reachable_initial|].
  eapply (Dashboard.step_navigate collate _ true _ (emptyDir "fr")).
  - reflexivity.
  - vm_compute. tauto.
Qed.

Lemma navigation_path_always_resolves_witness :
  exists root shown,
    Dashboard.root collate (fun _ => languageSite)
                   (Dashboard.onNavigate "fr" Dashboard.initial) = Ok root
    /\ reaches root ["fr"] shown
    /\ Dashboard.node collate (fun _ => languageSite)
                      (Dashboard.onNavigate "fr" Dashboard.initial)
       = Ok shown.
Proof.
  eexists.
  destruct (navigation_path_always_resolves
              collate (fun _ => languageSite)
              (Dashboard.onNavigate "fr" Dashboard.initial)
              _ reachable_fr eq_refl) as [[shown [Hshown Hnode]] _].
  exists shown. split; [reflexivity|]. split; [exact Hshown | exact Hnode].
Defined.

(** Only the cards of the language directories call [onNavigate]: every
    segment of a navigation path the user can reach is a language code,
    in some letter case. *)
Theorem navigation_only_into_languages
        (localeCompare : string -> string -> Z)
        (SITES : string -> SitemapSummary) (s : Dashboard.State) :
  Dashboard.reachable localeCompare SITES s ->
  Forall (fun segment => isLanguage segment = true)
         (Dashboard.navigationPath s).
Proof.
  induction 1 as [|s s' _ IH Hstep]; [constructor|].
  destruct Hstep as [mode s | site s | s | s | index s Hindex
                     | hideCommon shown child s Hnode Hchild]; simpl;
    try constructor; try exact IH.
  - rewrite Forall_forall in *. intros segment Hin.
    apply IH. rewrite <- (firstn_skipn (index + 1)).
    apply in_or_app. now left.
  - apply Forall_app. split; [exact IH|]. constructor; [|constructor].
    unfold languageDirs in Hchild.
    apply sort_In, filter_In in Hchild. now destruct Hchild.
Qed.

Lemma navigation_only_into_languages_witness :
  Forall (fun segment => isLanguage segment = true) ["fr"].
Proof.
  exact (navigation_only_into_languages
           collate (fun _ => languageSite)
           (Dashboard.onNavigate "fr" Dashboard.initial) reachable_fr).
Defined.
